(** * ep: runners, short-circuit channel, exchange and distributer

    A shallow embedding of the Go package [ep] (runner contract,
    [exchange.go], [distribute.go]) and the properties its specification
    states about it.

    Conventions of the embedding
    - a Go [string] is a sequence of bytes: Rocq's [string], one [ascii]
      per byte;
    - an [error] is a value of the inductive [error]; the comparison
      [err == io.EOF] is a test on the constructor, [err.Error()] is
      [Error];
    - a call that does not return (a receive on an empty open channel, a
      send on a full one) is the outcome [Blocks]; a run-time panic is
      [Panics]; a call that returns [v] is [Returns v];
    - objects shared through pointers (short-circuits, connections) live
      in a store and are named by their address. *)

From stdpp Require Import base option list strings gmap relations functions.
From Equations Require Import Equations.
From Stdlib Require Import ZArith NArith Lia.
From Stdlib Require Ascii String.

#[local] Arguments String.append !s1 s2 / : simpl nomatch.

(** ** Go run-time values *)

(** The error values the package produces or compares against. *)
Inductive error : Type :=
| io_EOF                         (* io.EOF *)
| io_ErrClosedPipe               (* io.ErrClosedPipe *)
| errMsg (Msg : string)          (* &errMsg{Msg} *)
| errorString (s : string).      (* fmt.Errorf / errors.New / transport errors *)

(** [func (err *errMsg) Error() string { return err.Msg }] and the
    standard library's messages. *)
Definition Error (e : error) : string :=
  match e with
  | io_EOF => "EOF"
  | io_ErrClosedPipe => "io: read/write on closed pipe"
  | errMsg m => m
  | errorString s => s
  end.

(** [err == io.EOF]: identity with the sentinel. *)
Definition is_io_EOF (e : error) : bool :=
  match e with io_EOF => true | _ => false end.

#[global] Instance error_eq_dec : EqDecision error.
Proof. solve_decision. Defined.

(** What a call does: block for ever, panic, or return. *)
Inductive outcome (A : Type) : Type :=
| Blocks
| Panics
| Returns (a : A).
Arguments Blocks {A}.
Arguments Panics {A}.
Arguments Returns {A} a.

Definition obind {A B} (m : outcome A) (k : A → outcome B) : outcome B :=
  match m with
  | Blocks => Blocks
  | Panics => Panics
  | Returns a => k a
  end.

Notation "' p ← m ;;; k" := (obind m (λ x, let 'p := x in k))
  (at level 20, p pattern, m at level 100, k at level 200, right associativity,
   format "' p  ←  m  ;;;  '/' k").
Notation "x ← m ;;; k" := (obind m (λ x, k))
  (at level 20, m at level 100, k at level 200, right associativity,
   format "x  ←  m  ;;;  '/' k").

(** ** Buffered channels *)

(** [make(chan A, cap)]: the queued values, the capacity, and whether the
    channel was closed. *)
Record chan (A : Type) : Type := Chan {
  buf : list A;
  cap : nat;
  closed : bool
}.
Arguments Chan {A} buf cap closed.
Arguments buf {A} c.
Arguments cap {A} c.
Arguments closed {A} c.

Definition make_chan {A} (n : nat) : chan A := Chan [] n false.

(** [c <- v] with no receiver parked on the channel. *)
Definition chan_send {A} (c : chan A) (v : A) : outcome (chan A) :=
  if closed c then Panics
  else if decide (length (buf c) < cap c) then
    Returns (Chan (buf c ++ [v]) (cap c) false)
  else Blocks.

(** [v, ok := <- c] with no sender parked on the channel. *)
Definition chan_recv {A} (c : chan A) : outcome (chan A * option A) :=
  match buf c with
  | v :: q => Returns (Chan q (cap c) (closed c), Some v)
  | [] => if closed c then Returns (c, None) else Blocks
  end.

(** [close(c)] *)
Definition chan_close {A} (c : chan A) : outcome (chan A) :=
  if closed c then Panics else Returns (Chan (buf c) (cap c) true).

Section Runner.

(** The types [Dataset] and [Type] and the constant [Wildcard] are
    declared in files of the package that are not part of this
    development; the runners treat a dataset as an opaque value. They are
    parameters here. *)
Context {Dataset : Type} {Type_ : Type} (Wildcard : Type_).

(** ** PassThrough *)

(** [Returns] of the passthrough runner: [return []Type{Wildcard}]. *)
Definition passthrough_Returns : list Type_ := [Wildcard].

(** [for data := range inp { out <- data }; return nil]

    [inp] is the input stream as the runner will see it: the datasets
    still to be delivered and whether the producer then closes it. [out]
    is what has been sent on the output stream so far. *)
Fixpoint passthrough_range (q : list Dataset) (cl : bool) (out : list Dataset)
  : outcome (list Dataset * option error) :=
  match q with
  | data :: q' => passthrough_range q' cl (out ++ [data])
  | [] => if cl then Returns (out, None) else Blocks
  end.

Definition passthrough_Run (inp : chan Dataset) (out : list Dataset)
  : outcome (list Dataset * option error) :=
  passthrough_range (buf inp) (closed inp) out.

(** ** The envelope and its payload *)

(** The dynamic type of an [interface{}] payload as the exchange tells
    them apart: a [Dataset], an [*errMsg] (the only registered type that
    is an [error]), a nil interface, or a value of any other type. *)
Inductive payload : Type :=
| PNil
| PDataset (d : Dataset)
| PErrMsg (Msg : string)
| POther.

(** [type dataReq struct { Payload interface{} }] *)
Record dataReq : Type := DataReq { Payload : payload }.

(** ** Short-circuit *)

(** [type shortCircuit struct { C chan interface{}; Closed bool; ... }] *)
Record shortCircuit : Type := ShortCircuit {
  C : chan dataReq;
  Closed : bool
}.

(** [&shortCircuit{C: make(chan interface{}, 1000)}] *)
Definition newShortCircuit : shortCircuit := ShortCircuit (make_chan 1000) false.

Definition shortCircuit_Close (sc : shortCircuit)
  : outcome (shortCircuit * option error) :=
  if Closed sc then Returns (sc, None)
  else
    c ← chan_close (C sc) ;;;
    Returns (ShortCircuit c true, None).

Definition shortCircuit_Encode (sc : shortCircuit) (e : dataReq)
  : outcome (shortCircuit * option error) :=
  if Closed sc then Returns (sc, Some io_ErrClosedPipe)
  else
    c ← chan_send (C sc) e ;;;
    Returns (ShortCircuit c (Closed sc), None).

(** [Decode] fills the envelope [req] it is handed and returns the error. *)
Definition shortCircuit_Decode (sc : shortCircuit) (req : dataReq)
  : outcome (shortCircuit * dataReq * option error) :=
  '(c, v) ← chan_recv (C sc) ;;;
  match v with
  | None => Returns (ShortCircuit c (Closed sc), req, Some io_EOF)
  | Some v => Returns (ShortCircuit c (Closed sc), DataReq (Payload v), None)
  end.

(** One operation on a short-circuit that returned. *)
Inductive sc_step : shortCircuit → shortCircuit → Prop :=
| sc_step_Close sc sc' r :
    shortCircuit_Close sc = Returns (sc', r) → sc_step sc sc'
| sc_step_Encode sc e sc' r :
    shortCircuit_Encode sc e = Returns (sc', r) → sc_step sc sc'
| sc_step_Decode sc req sc' req' r :
    shortCircuit_Decode sc req = Returns (sc', req', r) → sc_step sc sc'.

(** The states a short-circuit made by [newShortCircuit] can be in. *)
Definition sc_reachable (sc : shortCircuit) : Prop :=
  rtc sc_step newShortCircuit sc.

(** [n] consecutive [Encode] calls, one per envelope, stopping at the
    first that does not return nil. *)
Fixpoint shortCircuit_Encodes (sc : shortCircuit) (es : list dataReq)
  : outcome (shortCircuit * option error) :=
  match es with
  | [] => Returns (sc, None)
  | e :: es' =>
      '(sc', r) ← shortCircuit_Encode sc e ;;;
      match r with
      | Some err => Returns (sc', Some err)
      | None => shortCircuit_Encodes sc' es'
      end
  end.

(** [n] consecutive [Decode] calls, each into a fresh envelope [req0]:
    the envelopes and errors they return, in order. *)
Fixpoint shortCircuit_Decodes (n : nat) (sc : shortCircuit) (req0 : dataReq)
  : outcome (shortCircuit * list (dataReq * option error)) :=
  match n with
  | 0 => Returns (sc, [])
  | S n' =>
      '(sc', req, r) ← shortCircuit_Decode sc req0 ;;;
      '(sc'', rs) ← shortCircuit_Decodes n' sc' req0 ;;;
      Returns (sc'', (req, r) :: rs)
  end.

(** ** The store: short-circuits and connections

    A short-circuit is shared, as one pointer, by the encoder, decoder and
    closer lists of an exchange; a [net.Conn] by an encoder, a decoder and
    the closer list. Both are named by their address in the store. A
    connection is seen from this node: what was encoded onto it, and what
    the peer's envelopes and hang-up will make [Decode] return. *)

Definition conn : Type := nat.

Record netconn : Type := NetConn {
  sent : list dataReq;        (* envelopes encoded onto the connection, oldest first *)
  wr_err : option error;      (* the error a write meets, if the link is broken *)
  rcvd : list dataReq;        (* envelopes from the peer, not decoded yet *)
  rd_end : option error;      (* what a read past them returns: io.EOF once the
                                 peer hung up, an I/O error, nothing so far *)
  cl_err : option error;      (* the error Close returns *)
  hung_up : bool              (* closed on this side *)
}.

Record store : Type := Store {
  scs : nat → shortCircuit;
  next_sc : nat;
  conns_ : conn → netconn
}.

(** The error of an operation on a connection closed on this side. *)
Definition errNetClosing : error := errorString "use of closed network connection".

(** [gob.Encoder.Encode] over a connection. *)
Definition gob_Encode (n : netconn) (req : dataReq) : netconn * option error :=
  if hung_up n then (n, Some errNetClosing)
  else match wr_err n with
       | Some e => (n, Some e)
       | None => (NetConn (sent n ++ [req]) None (rcvd n) (rd_end n) (cl_err n) false, None)
       end.

(** [gob.Decoder.Decode] over a connection, into the envelope [req]. *)
Definition gob_Decode (n : netconn) (req : dataReq)
  : outcome (netconn * dataReq * option error) :=
  if hung_up n then Returns (n, req, Some errNetClosing)
  else match rcvd n with
       | v :: q =>
           Returns (NetConn (sent n) (wr_err n) q (rd_end n) (cl_err n) false, v, None)
       | [] => match rd_end n with
               | Some e => Returns (n, req, Some e)
               | None => Blocks
               end
       end.

(** [net.Conn.Close] *)
Definition conn_Close (n : netconn) : netconn * option error :=
  if hung_up n then (n, Some errNetClosing)
  else (NetConn (sent n) (wr_err n) (rcvd n) (rd_end n) (cl_err n) true, cl_err n).

(** The implementations of the interfaces [encoder], [decoder] and
    [io.Closer] the exchange holds. *)
Inductive encoder : Type :=
| encShort (sc : nat)                      (* *shortCircuit *)
| dbgEncoder (c : conn) (msg : string).    (* dbgEncoder{gob.NewEncoder(c), msg} *)

Inductive decoder : Type :=
| decShort (sc : nat)
| dbgDecoder (c : conn) (msg : string).

Inductive closer : Type :=
| closeShort (sc : nat)
| closeConn (c : conn).

Definition store_set_sc (h : store) (l : nat) (sc : shortCircuit) : store :=
  Store (<[l := sc]> (scs h)) (next_sc h) (conns_ h).

Definition store_set_conn (h : store) (c : conn) (n : netconn) : store :=
  Store (scs h) (next_sc h) (<[c := n]> (conns_ h)).

Definition encoder_Encode (enc : encoder) (req : dataReq) (h : store)
  : outcome (option error * store) :=
  match enc with
  | encShort l =>
      '(sc, r) ← shortCircuit_Encode (scs h l) req ;;;
      Returns (r, store_set_sc h l sc)
  | dbgEncoder c _ =>
      let '(n, r) := gob_Encode (conns_ h c) req in
      Returns (r, store_set_conn h c n)
  end.

(** The object an encoder writes to: a short-circuit or a connection. *)
Definition encoder_target (enc : encoder) : nat + conn :=
  match enc with
  | encShort l => inl l
  | dbgEncoder c _ => inr c
  end.

(** The envelopes an encoder has been given and holds for its reader:
    queued on the short-circuit, or encoded onto the connection. *)
Definition encoder_holds (enc : encoder) (h : store) : list dataReq :=
  match enc with
  | encShort l => buf (C (scs h l))
  | dbgEncoder c _ => sent (conns_ h c)
  end.

Definition decoder_Decode (dec : decoder) (req : dataReq) (h : store)
  : outcome (option error * dataReq * store) :=
  match dec with
  | decShort l =>
      '(sc, req', r) ← shortCircuit_Decode (scs h l) req ;;;
      Returns (r, req', store_set_sc h l sc)
  | dbgDecoder c _ =>
      '(n, req', r) ← gob_Decode (conns_ h c) req ;;;
      Returns (r, req', store_set_conn h c n)
  end.

Definition closer_Close (cl : closer) (h : store) : outcome (option error * store) :=
  match cl with
  | closeShort l =>
      '(sc, r) ← shortCircuit_Close (scs h l) ;;;
      Returns (r, store_set_sc h l sc)
  | closeConn c =>
      let '(n, r) := conn_Close (conns_ h c) in
      Returns (r, store_set_conn h c n)
  end.

(** ** Exchange *)

Definition sendGather : Z := 1.
Definition sendScatter : Z := 2.
Definition sendBroadcast : Z := 3.
Definition sendPartition : Z := 4.

(** [type exchange struct]. The two cursors are unexported, start at zero
    and are only ever assigned a remainder modulo a length: naturals. *)
Record exchange : Type := Exchange {
  UID : string;
  SendTo : Z;
  encs : list encoder;
  decs : list decoder;
  conns : list closer;
  encsNext : nat;
  decsNext : nat
}.

Definition set_encs (ex : exchange) (l : list encoder) : exchange :=
  Exchange (UID ex) (SendTo ex) l (decs ex) (conns ex) (encsNext ex) (decsNext ex).
Definition set_decs (ex : exchange) (l : list decoder) : exchange :=
  Exchange (UID ex) (SendTo ex) (encs ex) l (conns ex) (encsNext ex) (decsNext ex).
Definition set_conns (ex : exchange) (l : list closer) : exchange :=
  Exchange (UID ex) (SendTo ex) (encs ex) (decs ex) l (encsNext ex) (decsNext ex).
Definition set_encsNext (ex : exchange) (i : nat) : exchange :=
  Exchange (UID ex) (SendTo ex) (encs ex) (decs ex) (conns ex) i (decsNext ex).
Definition set_decsNext (ex : exchange) (i : nat) : exchange :=
  Exchange (UID ex) (SendTo ex) (encs ex) (decs ex) (conns ex) (encsNext ex) i.

(** The method calls an exchange makes on the objects it holds, by the
    index of the object in its list. *)
Inductive event : Type :=
| EvEncode (i : nat) (req : dataReq)     (* ex.encs[i].Encode(req) *)
| EvDecode (i : nat)                     (* ex.decs[i].Decode(req) *)
| EvClose (i : nat).                     (* ex.conns[i].Close() *)

(** A method of the exchange: the calls it made, and how it ended. *)
Definition traced (A : Type) : Type := list event * outcome A.

Definition after {A} (ev : event) (m : traced A) : traced A :=
  (ev :: m.1, m.2).

(** [err1 := enc.Encode(req); if err1 != nil { err = err1 }] *)
Definition keep_last (err err1 : option error) : option error :=
  match err1 with Some _ => err1 | None => err end.

(** [for _, enc := range ex.encs { ... }] from index [i] on. *)
Fixpoint EncodeAll_range (l : list encoder) (i : nat) (req : dataReq)
    (err : option error) (h : store) : traced (option error * store) :=
  match l with
  | [] => ([], Returns (err, h))
  | enc :: l' =>
      match encoder_Encode enc req h with
      | Returns (err1, h') =>
          after (EvEncode i req) (EncodeAll_range l' (S i) req (keep_last err err1) h')
      | Blocks => ([EvEncode i req], Blocks)
      | Panics => ([EvEncode i req], Panics)
      end
  end.

(** The envelope [EncodeAll] builds from its argument, a dataset or an
    error: [err, _ = e.(error); if err != nil { e = &errMsg{err.Error()} }]. *)
Definition EncodeAll_req (e : Dataset + error) : dataReq :=
  match e with
  | inl d => DataReq (PDataset d)
  | inr err => DataReq (PErrMsg (Error err))
  end.

Definition exchange_EncodeAll (ex : exchange) (h : store) (e : Dataset + error)
  : traced (option error * store) :=
  EncodeAll_range (encs ex) 0 (EncodeAll_req e) None h.

(** [(ex.encsNext + 1) % len(ex.encs)] *)
Definition next_enc (ex : exchange) : nat :=
  (encsNext ex + 1) mod length (encs ex).

Definition exchange_EncodeNext (ex : exchange) (h : store) (e : payload)
  : traced (option error * exchange * store) :=
  match decide (length (encs ex) = 0) with
  | left _ => ([], Returns (Some io_ErrClosedPipe, ex, h))
  | right _ =>
      let req := DataReq e in
      let ex' := set_encsNext ex (next_enc ex) in
      match encs ex' !! encsNext ex' with
      | None => ([], Panics)
      | Some enc =>
          ([EvEncode (encsNext ex') req],
           '(r, h') ← encoder_Encode enc req h ;;; Returns (r, ex', h'))
      end
  end.

Definition exchange_EncodePartition (ex : exchange) (h : store) (e : payload)
  : traced (option error * exchange * store) :=
  ([], Returns (None, ex, h)).

Definition exchange_Send (ex : exchange) (h : store) (data : Dataset)
  : traced (option error * exchange * store) :=
  if decide (SendTo ex = sendScatter) then exchange_EncodeNext ex h (PDataset data)
  else if decide (SendTo ex = sendPartition) then exchange_EncodePartition ex h (PDataset data)
  else
    let '(t, o) := exchange_EncodeAll ex h (inl data) in
    (t, '(r, h') ← o ;;; Returns (r, ex, h')).

(** [if err == nil { err, _ = data.(error) }] *)
Definition decoded_error (err : option error) (data : payload) : option error :=
  match err with
  | Some e => Some e
  | None => match data with PErrMsg m => Some (errMsg m) | _ => None end
  end.

(** [if err != nil && err.Error() == io.EOF.Error() { err = io.EOF }] *)
Definition normalize_EOF (err : option error) : option error :=
  match err with
  | Some e => if decide (Error e = Error io_EOF) then Some io_EOF else Some e
  | None => None
  end.

(** [(ex.decsNext + 1) % len(ex.decs)] *)
Definition next_dec (ex : exchange) : nat :=
  (decsNext ex + 1) mod length (decs ex).

Definition inspect {A} (a : A) : {b : A | a = b} := exist _ a eq_refl.

(** [return data.(Dataset), nil] after [ex.decsNext = i]. *)
Definition DecodeNext_data (ex : exchange) (h : store) (i : nat) (data : payload)
  : outcome (option Dataset * option error * exchange * store) :=
  match data with
  | PDataset d => Returns (Some d, None, set_decsNext ex i, h)
  | _ => Panics
  end.

Equations? exchange_DecodeNext (ex : exchange) (h : store)
  : traced (option Dataset * option error * exchange * store)
  by wf (length (decs ex)) lt :=
exchange_DecodeNext ex h with decide (length (decs ex) = 0) := {
  | left _ => ([], Returns (None, Some io_EOF, ex, h));
  | right _ with inspect (decs ex !! next_dec ex) := {
    | exist _ None _ => ([], Panics);
    | exist _ (Some dec) Hdec with decoder_Decode dec (DataReq PNil) h := {
      | Blocks => ([EvDecode (next_dec ex)], Blocks);
      | Panics => ([EvDecode (next_dec ex)], Panics);
      | Returns (err, req, h')
          with normalize_EOF (decoded_error err (Payload req)) := {
        | Some io_EOF =>
            after (EvDecode (next_dec ex))
              (exchange_DecodeNext (set_decs ex (delete (next_dec ex) (decs ex))) h');
        | Some e => ([EvDecode (next_dec ex)], Returns (None, Some e, ex, h'));
        | None =>
            ([EvDecode (next_dec ex)],
             DecodeNext_data ex h' (next_dec ex) (Payload req)) } } } }.
Proof.
  simpl. apply lookup_lt_Some in Hdec.
  rewrite length_delete by (apply lookup_lt_is_Some; lia). lia.
Qed.

Definition exchange_Receive (ex : exchange) (h : store)
  : traced (option Dataset * option error * exchange * store) :=
  exchange_DecodeNext ex h.

(** Consecutive calls [ex.Send(d)], one for each dataset of [ds], whatever
    error each returns: the errors, in order. *)
Fixpoint exchange_Sends (ex : exchange) (h : store) (ds : list Dataset)
  : traced (list (option error) * exchange * store) :=
  match ds with
  | [] => ([], Returns ([], ex, h))
  | d :: ds' =>
      match exchange_Send ex h d with
      | (t, Returns (r, ex', h')) =>
          let '(t', o) := exchange_Sends ex' h' ds' in
          (t ++ t', '(rs, ex'', h'') ← o ;;; Returns (r :: rs, ex'', h''))
      | (t, Blocks) => (t, Blocks)
      | (t, Panics) => (t, Panics)
      end
  end.

(** The envelopes handed to the encoder at index [j], in order. *)
Definition encoded_to (j : nat) (t : list event) : list dataReq :=
  omap (λ ev, match ev with
              | EvEncode i req => if decide (i = j) then Some req else None
              | _ => None
              end) t.

(** The indices of the decoders [Decode] was called on, in order. *)
Definition decoded_from (t : list event) : list nat :=
  omap (λ ev, match ev with EvDecode i => Some i | _ => None end) t.

(** [for _, conn := range ex.conns { err1 := conn.Close(); ... }] *)
Fixpoint Close_range (l : list closer) (i : nat) (errOut : option error) (h : store)
  : traced (option error * store) :=
  match l with
  | [] => ([], Returns (errOut, h))
  | cl :: l' =>
      match closer_Close cl h with
      | Returns (err1, h') =>
          after (EvClose i) (Close_range l' (S i) (keep_last errOut err1) h')
      | Blocks => ([EvClose i], Blocks)
      | Panics => ([EvClose i], Panics)
      end
  end.

(** [Close]: the one-millisecond sleep has no effect on the state. *)
Definition exchange_Close (ex : exchange) (h : store) (err : option error)
  : traced (option error * store) :=
  match err with
  | Some e =>
      match exchange_EncodeAll ex h (inr e) with
      | (t, Returns (errOut, h')) =>
          let '(t', o) := Close_range (conns ex) 0 errOut h' in (t ++ t', o)
      | (t, Blocks) => (t, Blocks)
      | (t, Panics) => (t, Panics)
      end
  | None => Close_range (conns ex) 0 None h
  end.

(** *** Init *)

(** The values [Init] reads from the context, and the context's own
    cancellation ([ctx.Done()] fires with [ctx.Err()]). *)
Record context : Type := Context_ {
  AllNodes : list string;
  ThisNode : string;
  MasterNode : string;
  Done : option error
}.

(** The distributer is known to [Init] only as an object with a method
    [Connect(addr, uid string) (net.Conn, error)]. *)
Context {Distributer : Type}
        (dist_Connect : Distributer → string → string → Distributer * (conn + error)).

(** [newShortCircuit()]: a fresh short-circuit in the store. *)
Definition store_alloc_sc (h : store) : nat * store :=
  (next_sc h, Store (<[next_sc h := newShortCircuit]> (scs h)) (S (next_sc h)) (conns_ h)).

(** The local variables of [Init], with the state it changes. *)
Record init_state : Type := InitState {
  i_ex : exchange;
  i_store : store;
  i_dist : Distributer;
  i_connsMap : gmap string conn;
  i_shortCircuit : option nat
}.

Definition dbg_msg (thisNode n : string) : string :=
  "THIS " +:+ thisNode +:+ " OTHER " +:+ n.

(** [for _, n := range targetNodes { ... }] *)
Fixpoint Init_targets (thisNode : string) (targetNodes : list string) (st : init_state)
  : option error * init_state :=
  match targetNodes with
  | [] => (None, st)
  | n :: rest =>
      if decide (n = thisNode) then
        let '(l, h) := store_alloc_sc (i_store st) in
        let ex := set_conns (i_ex st) (conns (i_ex st) ++ [closeShort l]) in
        let ex := set_encs ex (encs ex ++ [encShort l]) in
        Init_targets thisNode rest
          (InitState ex h (i_dist st) (i_connsMap st) (Some l))
      else
        let msg := dbg_msg thisNode n in
        match dist_Connect (i_dist st) n (UID (i_ex st)) with
        | (d, inr err) =>
            (Some err, InitState (i_ex st) (i_store st) d (i_connsMap st) (i_shortCircuit st))
        | (d, inl c) =>
            let ex := set_conns (i_ex st) (conns (i_ex st) ++ [closeConn c]) in
            let ex := set_encs ex (encs ex ++ [dbgEncoder c msg]) in
            Init_targets thisNode rest
              (InitState ex (i_store st) d (<[n := c]> (i_connsMap st)) (i_shortCircuit st))
        end
  end.

(** [for i := 0; shortCircuit != nil && i < len(allNodes); i++ { ... }],
    entered with [shortCircuit] the short-circuit at [l]. *)
Fixpoint Init_sources (thisNode : string) (l : nat) (allNodes : list string)
    (st : init_state) : option error * init_state :=
  match allNodes with
  | [] => (None, st)
  | n :: rest =>
      if decide (n = thisNode) then
        Init_sources thisNode l rest
          (InitState (set_decs (i_ex st) (decs (i_ex st) ++ [decShort l]))
             (i_store st) (i_dist st) (i_connsMap st) (i_shortCircuit st))
      else
        let msg := dbg_msg thisNode n in
        match i_connsMap st !! n with
        | Some c =>
            Init_sources thisNode l rest
              (InitState (set_decs (i_ex st) (decs (i_ex st) ++ [dbgDecoder c msg]))
                 (i_store st) (i_dist st) (i_connsMap st) (i_shortCircuit st))
        | None =>
            match dist_Connect (i_dist st) n (UID (i_ex st)) with
            | (d, inr err) =>
                (Some err,
                 InitState (i_ex st) (i_store st) d (i_connsMap st) (i_shortCircuit st))
            | (d, inl c) =>
                let ex := set_conns (i_ex st) (conns (i_ex st) ++ [closeConn c]) in
                let ex := set_decs ex (decs ex ++ [dbgDecoder c msg]) in
                Init_sources thisNode l rest
                  (InitState ex (i_store st) d (i_connsMap st) (i_shortCircuit st))
            end
        end
  end.

(** [targetNodes := allNodes; if ex.SendTo == sendGather { targetNodes = []string{masterNode} }] *)
Definition Init_targetNodes (ctx : context) (ex : exchange) : list string :=
  if decide (SendTo ex = sendGather) then [MasterNode ctx] else AllNodes ctx.

Definition exchange_Init (ctx : context) (ex : exchange) (h : store) (d : Distributer)
  : option error * init_state :=
  match Init_targets (ThisNode ctx) (Init_targetNodes ctx ex) (InitState ex h d ∅ None) with
  | (Some err, st) => (Some err, st)
  | (None, st) =>
      match i_shortCircuit st with
      | None => (None, st)
      | Some l => Init_sources (ThisNode ctx) l (AllNodes ctx) st
      end
  end.

(** Every call to [Connect] yields a connection. *)
Definition connects : Prop :=
  ∀ d n u, ∃ d' c, dist_Connect d n u = (d', inl c).

(** The short-circuit [Init] remembers is among its encoders and closers. *)
Definition short_registered (st : init_state) : Prop :=
  ∀ l, i_shortCircuit st = Some l →
    encShort l ∈ encs (i_ex st) ∧ closeShort l ∈ conns (i_ex st).

(** *** Run

    [Run] is two goroutines, the receiver and the send loop, sharing the
    exchange; a state of the run and the steps either of them can take. *)

Inductive receiver : Type :=
| RcvNone                          (* not started *)
| RcvRunning                       (* in its loop, about to call Receive *)
| RcvReports (v : option error)    (* sending v on errs *)
| RcvExited.                       (* returned: errs is closed *)

Record run_state : Type := RunState {
  r_ex : exchange;
  r_store : store;
  r_inp : option (chan Dataset);   (* None once [inp = nil] *)
  r_out : list Dataset;            (* what was sent on [out], oldest first *)
  r_rcv : receiver;
  r_rcvDone : bool;
  r_sndDone : bool;
  r_err : option error;
  r_returned : bool                (* Run has returned [r_err] *)
}.

(** [err == nil && (!rcvDone || !sndDone)] *)
Definition loop_guard (s : run_state) : bool :=
  match r_err s with
  | None => negb (r_rcvDone s) || negb (r_sndDone s)
  | Some _ => false
  end.

(** The state after [err = ex.Init(ctx)]. *)
Definition exchange_Run_init (ctx : context) (ex : exchange) (h : store) (d : Distributer)
    (inp : chan Dataset) (out : list Dataset) : run_state :=
  match exchange_Init ctx ex h d with
  | (Some err, st) =>
      RunState (i_ex st) (i_store st) (Some inp) out RcvNone false false (Some err) false
  | (None, st) =>
      RunState (i_ex st) (i_store st) (Some inp) out RcvRunning false false None false
  end.

Inductive run_step (ctx : context) : run_state → run_state → Prop :=
(* receiver: data, err := ex.Receive(); out <- data *)
| step_receive_data s t d ex h :
    r_rcv s = RcvRunning →
    exchange_Receive (r_ex s) (r_store s) = (t, Returns (Some d, None, ex, h)) →
    run_step ctx s
      (RunState ex h (r_inp s) (r_out s ++ [d]) RcvRunning
         (r_rcvDone s) (r_sndDone s) (r_err s) (r_returned s))
(* receiver: err == io.EOF: break; errs <- nil *)
| step_receive_eof s t od ex h :
    r_rcv s = RcvRunning →
    exchange_Receive (r_ex s) (r_store s) = (t, Returns (od, Some io_EOF, ex, h)) →
    run_step ctx s
      (RunState ex h (r_inp s) (r_out s) (RcvReports None)
         (r_rcvDone s) (r_sndDone s) (r_err s) (r_returned s))
(* receiver: err != nil: errs <- err; return *)
| step_receive_err s t od e ex h :
    r_rcv s = RcvRunning →
    exchange_Receive (r_ex s) (r_store s) = (t, Returns (od, Some e, ex, h)) →
    e ≠ io_EOF →
    run_step ctx s
      (RunState ex h (r_inp s) (r_out s) (RcvReports (Some e))
         (r_rcvDone s) (r_sndDone s) (r_err s) (r_returned s))
(* send loop: case data, ok := <- inp, ok: err = ex.Send(data) *)
| step_inp_data s c c' d t r ex h :
    r_returned s = false → loop_guard s = true →
    r_inp s = Some c → chan_recv c = Returns (c', Some d) →
    exchange_Send (r_ex s) (r_store s) d = (t, Returns (r, ex, h)) →
    run_step ctx s
      (RunState ex h (Some c') (r_out s) (r_rcv s)
         (r_rcvDone s) (r_sndDone s) r false)
(* send loop: case data, ok := <- inp, !ok: ex.EncodeAll(io.EOF); inp = nil *)
| step_inp_closed s c c' t r h :
    r_returned s = false → loop_guard s = true →
    r_inp s = Some c → chan_recv c = Returns (c', None) →
    exchange_EncodeAll (r_ex s) (r_store s) (inr io_EOF) = (t, Returns (r, h)) →
    run_step ctx s
      (RunState (r_ex s) h None (r_out s) (r_rcv s)
         (r_rcvDone s) true (r_err s) false)
(* send loop: case err = <- errs, the receiver's report *)
| step_errs s v :
    r_returned s = false → loop_guard s = true →
    r_rcv s = RcvReports v →
    run_step ctx s
      (RunState (r_ex s) (r_store s) (r_inp s) (r_out s) RcvExited
         true (r_sndDone s) v false)
(* send loop: case err = <- errs, on the closed channel *)
| step_errs_closed s :
    r_returned s = false → loop_guard s = true →
    r_rcv s = RcvExited →
    run_step ctx s
      (RunState (r_ex s) (r_store s) (r_inp s) (r_out s) RcvExited
         true (r_sndDone s) None false)
(* send loop: case <- ctx.Done(): err = ctx.Err() *)
| step_ctx s e :
    r_returned s = false → loop_guard s = true →
    Done ctx = Some e →
    run_step ctx s
      (RunState (r_ex s) (r_store s) (r_inp s) (r_out s) (r_rcv s)
         (r_rcvDone s) (r_sndDone s) (Some e) false)
(* return err, through the deferred ex.Close(err) *)
| step_return s t r h :
    r_returned s = false → loop_guard s = false →
    exchange_Close (r_ex s) (r_store s) (r_err s) = (t, Returns (r, h)) →
    run_step ctx s
      (RunState (r_ex s) h (r_inp s) (r_out s) (r_rcv s)
         (r_rcvDone s) (r_sndDone s) (r_err s) true).

(** The envelopes handed to the encoders, whichever they are, in order. *)
Definition encoded (t : list event) : list dataReq :=
  omap (λ ev, match ev with EvEncode _ req => Some req | _ => None end) t.

(** Whether the object a closer closes is closed in the store. *)
Definition closer_closed (cl : closer) (h : store) : bool :=
  match cl with
  | closeShort l => Closed (scs h l)
  | closeConn c => hung_up (conns_ h c)
  end.

(** The object a decoder reads from. *)
Definition decoder_target (dec : decoder) : nat + conn :=
  match dec with
  | decShort l => inl l
  | dbgDecoder c _ => inr c
  end.

(** The object a closer closes. *)
Definition closer_target (cl : closer) : nat + conn :=
  match cl with
  | closeShort l => inl l
  | closeConn c => inr c
  end.

End Runner.

Arguments payload : clear implicits.
Arguments dataReq : clear implicits.
Arguments shortCircuit : clear implicits.
Arguments netconn : clear implicits.
Arguments store : clear implicits.
Arguments event : clear implicits.
Arguments run_state : clear implicits.
Arguments init_state : clear implicits.

(** ** Null-terminated strings *)

Definition zero_byte : Ascii.ascii := Ascii.zero.

(** An [io.Writer]: the bytes written so far and the error a write meets. *)
Record writer : Type := Writer {
  written : string;
  w_err : option error
}.

Definition writer_Write (w : writer) (p : string) : writer * option error :=
  match w_err w with
  | Some e => (w, Some e)
  | None => (Writer (written w +:+ p) None, None)
  end.

(** [_, err := w.Write(append([]byte(s), 0)); return err] *)
Definition writeStr (w : writer) (s : string) : writer * option error :=
  writer_Write w (s +:+ String zero_byte EmptyString).

(** An [io.Reader]: the bytes still to be read, and what a read past them
    returns (nothing: the read blocks). *)
Record reader : Type := Reader {
  pending : string;
  r_end : option error
}.

(** [string(b[0])]: the conversion of an integer to a string yields the
    UTF-8 encoding of the code point of that value. *)
Definition string_of_byte (b : Ascii.ascii) : string :=
  let n := Ascii.N_of_ascii b in
  if (n <? 128)%N then String b EmptyString
  else String (Ascii.ascii_of_N (N.lor 192 (N.shiftr n 6)))
         (String (Ascii.ascii_of_N (N.lor 128 (N.land n 63))) EmptyString).

(** The loop of [readStr], with [s] the string accumulated so far. *)
Fixpoint readStr_loop (p : string) (e : option error) (s : string)
  : outcome (string * option error * reader) :=
  match p with
  | EmptyString =>
      match e with
      | Some err => Returns (s, Some err, Reader EmptyString e)
      | None => Blocks
      end
  | String b rest =>
      if decide (b = zero_byte) then Returns (s, None, Reader rest e)
      else readStr_loop rest e (s +:+ string_of_byte b)
  end.

Definition readStr (r : reader) : outcome (string * option error * reader) :=
  readStr_loop (pending r) (r_end r) EmptyString.

(** ** Distributer *)

(** The network as a dialing node meets it: whether dialing an address
    fails, the next connection it hands out, the bytes written on each
    connection towards its acceptor, and the connections on which writing
    fails. *)
Record network : Type := Network {
  dial_err : string → option error;
  next_conn : conn;
  wire : conn → string;
  broken : conn → option error
}.

(** [d.dial(addr)] *)
Definition dial (net : network) (addr : string) : network * (conn + error) :=
  match dial_err net addr with
  | Some e => (net, inr e)
  | None =>
      (Network (dial_err net) (S (next_conn net)) (<[next_conn net := EmptyString]> (wire net))
         (broken net),
       inl (next_conn net))
  end.

(** [writeStr(conn, s)] *)
Definition conn_writeStr (net : network) (c : conn) (s : string)
  : network * option error :=
  let '(w, r) := writeStr (Writer (wire net c) (broken net c)) s in
  (Network (dial_err net) (next_conn net) (<[c := written w]> (wire net)) (broken net), r).

(** [type distributer struct]: the node's address and, for each key of
    [connsMap], the rendezvous channel: the connections offered on it by
    the [Serve] goroutines parked in their send, oldest first. *)
Record distributer : Type := Distributer_ {
  addr : string;
  connsMap : gmap string (list conn)
}.

(** [connCh]: the channel of key [k], made if it is missing. *)
Definition distributer_connCh (d : distributer) (k : string) : distributer :=
  match connsMap d !! k with
  | Some _ => d
  | None => Distributer_ (addr d) (<[k := []]> (connsMap d))
  end.

(** [time.Second], in nanoseconds. *)
Definition time_Second : Z := 1000000000.

Definition errConnectTimeout : error :=
  errorString "ep: connect timeout; no incoming conn".

(** What [Connect] returns, and how long it waited on its timer. *)
Record connect_result : Type := ConnectResult {
  cr_conn : option conn;
  cr_err : option error;
  cr_waited : Z
}.

(** [from < addr] *)
Definition dials (from to : string) : bool := String.ltb from to.

Definition rendezvous_key (peer uid : string) : string := peer +:+ ":" +:+ uid.

Definition distributer_Connect (d : distributer) (net : network) (to uid : string)
  : distributer * network * connect_result :=
  if dials (addr d) to then
    match dial net to with
    | (net, inr err) => (d, net, ConnectResult None (Some err) 0)
    | (net, inl c) =>
        match conn_writeStr net c "D" with
        | (net, Some err) => (d, net, ConnectResult (Some c) (Some err) 0)
        | (net, None) =>
            match conn_writeStr net c (rendezvous_key (addr d) uid) with
            | (net, Some err) => (d, net, ConnectResult (Some c) (Some err) 0)
            | (net, None) => (d, net, ConnectResult (Some c) None 0)
            end
        end
    end
  else
    let k := rendezvous_key to uid in
    let d := distributer_connCh d k in
    match connsMap d !! k with
    | Some (c :: q) =>
        (Distributer_ (addr d) (<[k := q]> (connsMap d)), net, ConnectResult (Some c) None 0)
    | _ => (d, net, ConnectResult None (Some errConnectTimeout) time_Second)
    end.

(** How [Serve] ends. *)
Inductive serve_result : Type :=
| ServeBlocks                       (* waiting for bytes that do not come *)
| ServeReturns (err : option error)
| ServeOffers (key : string)        (* parked in [d.connCh(key) <- conn]; returns
                                       nil once a [Connect] receives *)
| ServeExecutes (r : reader).       (* decodes a runner from [r] and runs it *)

Definition distributer_Serve (d : distributer) (r : reader) (c : conn)
  : distributer * serve_result :=
  match readStr r with
  | Blocks | Panics => (d, ServeBlocks)
  | Returns (_, Some err, _) => (d, ServeReturns (Some err))
  | Returns (typee, None, r) =>
      if decide (typee = "D") then
        match readStr r with
        | Blocks | Panics => (d, ServeBlocks)
        | Returns (_, Some err, _) => (d, ServeReturns (Some err))
        | Returns (key, None, _) =>
            let d := distributer_connCh d key in
            (Distributer_ (addr d) (<[key := default [] (connsMap d !! key) ++ [c]]> (connsMap d)),
             ServeOffers key)
        end
      else if decide (typee = "X") then (d, ServeExecutes r)
      else
        (d, ServeReturns (Some (errorString ("unrecognized connection type: " +:+ typee))))
  end.

(** [NewDistributer(addr, listener)]: no rendezvous channel yet. *)
Definition NewDistributer (a : string) : distributer := Distributer_ a ∅.

(** [conn.Write(p)] *)
Definition conn_Write (net : network) (c : conn) (p : string) : network * option error :=
  let '(w, r) := writer_Write (Writer (wire net c) (broken net c)) p in
  (Network (dial_err net) (next_conn net) (<[c := written w]> (wire net)) (broken net), r).

(** ** Distributed wrapper *)

(** [type distRunner struct { Runner; Addrs []string; MasterAddr string;
    d *distributer }], over the type of the runner it wraps. *)
Record distRunner (R : Type) : Type := DistRunner {
  dr_Runner : R;
  Addrs : list string;
  MasterAddr : string;
  dr_d : distributer
}.
Arguments DistRunner {R} dr_Runner Addrs MasterAddr dr_d.
Arguments dr_Runner {R} d.
Arguments Addrs {R} d.
Arguments MasterAddr {R} d.
Arguments dr_d {R} d.

(** [return &distRunner{runner, addrs, d.addr, d}] *)
Definition distributer_Distribute {R : Type} (d : distributer) (runner : R)
    (addrs : list string) : distRunner R :=
  DistRunner runner addrs (addr d) d.

Section DistRunner.

(** The wrapped runner and what the object codec makes of a wrapper are
    outside the package core: [gob.NewEncoder(conn).Encode(r)] either
    writes the bytes [p] and returns nil, [inr p], or stops with an error
    [e], [inl (p, e)]. An encoder that stops has by then written [p], the
    descriptors of the types it has sent so far, which it sends before it
    encodes the value; [p] is empty when it stops before its first
    message. *)
Context {R : Type} (gob_bytes : distRunner R → string * error + string).

(** The loop of [Run] on the master, over the addresses still to visit.
    [deferred] holds the connections whose [Close] was deferred, the last
    first: they are closed in that order when [Run] returns. *)
Fixpoint distRunner_fanout (r : distRunner R) (addrs : list string) (net : network)
    (deferred : list conn) : network * list conn * option error :=
  match addrs with
  | [] => (net, deferred, None)
  | a :: rest =>
      if decide (a = addr (dr_d r)) then distRunner_fanout r rest net deferred
      else
        match dial net a with
        | (net, inr err) => (net, deferred, Some err)
        | (net, inl c) =>
            match conn_writeStr net c "X" with
            | (net, Some err) => (net, deferred, Some err)
            | (net, None) =>
                match gob_bytes r with
                | inl (p, err) =>
                    if decide (p = EmptyString) then (net, c :: deferred, Some err)
                    else
                      match conn_Write net c p with
                      | (net, Some werr) => (net, c :: deferred, Some werr)
                      | (net, None) => (net, c :: deferred, Some err)
                      end
                | inr p =>
                    match conn_Write net c p with
                    | (net, Some err) => (net, c :: deferred, Some err)
                    | (net, None) => distRunner_fanout r rest net (c :: deferred)
                    end
                end
            end
        end
  end.

(** [Run]: the network after it, the connections closed on return, and
    either the error it returns or the context with which it hands over
    to the wrapped runner, whose result it then returns. *)
Definition distRunner_Run (r : distRunner R) (ctx : context) (net : network)
  : network * list conn * (error + context) :=
  let ctx' := Context_ (Addrs r) (addr (dr_d r)) (MasterAddr r) (Done ctx) in
  if decide (addr (dr_d r) = MasterAddr r) then
    match distRunner_fanout r (Addrs r) net [] with
    | (net, deferred, Some err) => (net, deferred, inl err)
    | (net, deferred, None) => (net, deferred, inr ctx')
    end
  else (net, [], inr ctx').

End DistRunner.

(** ** Notions the properties are stated with *)

(** Every byte of [s] is an ASCII character other than the zero byte. *)
Fixpoint plain (s : string) : bool :=
  match s with
  | EmptyString => true
  | String b s' =>
      (0 <? Ascii.N_of_ascii b)%N && (Ascii.N_of_ascii b <? 128)%N && plain s'
  end.

(** No byte of [s] is the zero byte. *)
Fixpoint zero_free (s : string) : bool :=
  match s with
  | EmptyString => true
  | String b s' => negb (Ascii.eqb b zero_byte) && zero_free s'
  end.

(** Writing [s] with [writeStr] and reading the bytes back with [readStr]
    gives [s] again, with whatever follows left to be read. *)
Definition writeStr_readStr_roundtrip (s : string) : Prop :=
  ∀ (rest : string) (e : option error),
    readStr (Reader (written (writeStr (Writer EmptyString None) s).1 +:+ rest) e)
    = Returns (s, None, Reader rest e).

(** Dialing [to] succeeds and writing on the connection it yields does. *)
Definition network_ready (net : network) (to : string) : Prop :=
  dial_err net to = None ∧ broken net (next_conn net) = None.

(** No connection is on offer on the rendezvous channel of key [k]. *)
Definition no_offer (m : gmap string (list conn)) (k : string) : Prop :=
  default [] (m !! k) = [].

(** The rendezvous of the nodes [A] and [B] for [uid], [A] dialing: [A]'s
    [Connect(B, uid)] returns a connection on which it has written the
    tag D and the key made of its own address and [uid]; [B]'s [Serve] of
    that connection offers it under that same key; and [B]'s
    [Connect(A, uid)], waiting, returns that same connection. *)
Definition rendezvous (A B uid : string) (net : network)
    (mA mB : gmap string (list conn)) : Prop :=
  dials A B = true ∧ dials B A = false ∧
  ∃ c dA netA dB,
    distributer_Connect (Distributer_ A mA) net B uid
    = (dA, netA, ConnectResult (Some c) None 0)
    ∧ wire netA c
      = "D" +:+ String zero_byte (rendezvous_key A uid +:+ String zero_byte EmptyString)
    ∧ distributer_Serve (Distributer_ B mB) (Reader (wire netA c) None) c
      = (dB, ServeOffers (rendezvous_key A uid))
    ∧ ∃ dB', distributer_Connect dB netA A uid
             = (dB', netA, ConnectResult (Some c) None 0).

(** [Connect(to, uid)] on [d] comes back after one second without a
    connection and with an error of message [msg]. *)
Definition times_out_with (msg : string) (d : distributer) (net : network)
    (to uid : string) : Prop :=
  ∃ d' err,
    distributer_Connect d net to uid
    = (d', net, ConnectResult None (Some err) time_Second)
    ∧ Error err = msg.

(** What holds of every short-circuit made by [newShortCircuit]: the flag
    [Closed] tells whether the channel is closed, and the channel has room
    for a thousand envelopes. *)
Definition sc_inv {Dataset : Type} (sc : shortCircuit Dataset) : Prop :=
  Closed sc = closed (C sc) ∧ cap (C sc) = 1000.

(** How many calls it takes, from the cursor [c], to reach the encoder
    [j] among [n]. *)
Definition hops (n c j : nat) : nat := if decide (c < j) then j - c else j + n - c.

(** What [readStr] makes of the bytes it reads: each byte turned into the
    UTF-8 encoding of the character of that code. *)
Fixpoint runes_of_bytes (s : string) : string :=
  match s with
  | EmptyString => EmptyString
  | String b s' => string_of_byte b +:+ runes_of_bytes s'
  end.

(** Every short-circuit made by [newShortCircuit] holds no more envelopes
    than its channel has room for. *)
Definition sc_bounded {Dataset : Type} (sc : shortCircuit Dataset) : Prop :=
  length (buf (C sc)) ≤ cap (C sc).

(** What the send loop and the receiver of a run keep true. *)
Definition run_inv {Dataset : Type} (s : run_state Dataset) : Prop :=
  (r_sndDone s = true → r_inp s = None)
  ∧ (r_rcvDone s = true → r_rcv s = RcvExited)
  ∧ (r_returned s = true → loop_guard s = false).

(** Every dial succeeds and every write does. *)
Definition network_up (net : network) : Prop :=
  (∀ a, dial_err net a = None) ∧ (∀ c, broken net c = None).

(** The addresses the master's loop dials: all but its own, in order. *)
Definition others (own : string) (addrs : list string) : list string :=
  filter (λ a, a ≠ own) addrs.

(** ** Sample states

    Concrete nodes, stores and networks on which the properties are put
    to work. Datasets are numbers here. *)

(** A store whose short-circuits are all fresh and whose connections are
    idle. *)
Definition store0 : store nat :=
  Store (λ _, newShortCircuit) 0 (λ _, NetConn [] None [] None None false).

(** A scatter exchange holding three encoders. *)
Definition ex_scatter3 : exchange :=
  Exchange "uid" sendScatter [encShort 0; encShort 1; encShort 2] [] [] 0 0.

(** A gather exchange as it arrives on a node. *)
Definition ex_gather : exchange := Exchange "uid" sendGather [] [] [] 0 0.

(** The node b of a cluster of two whose master is a. *)
Definition ctx_b : context := Context_ ["a"; "b"] "b" "a" None.

(** A distributer whose [Connect] hands out connection 7. *)
Definition connect7 (d : unit) (_ _ : string) : unit * (conn + error) := (d, inl 7).

(** A network where every dial and every write succeed. *)
Definition net0 : network :=
  Network (λ _, None) 0 (λ _, EmptyString) (λ _, None).

(** A uid holding a zero byte. *)
Definition uid_nul : string :=
  "u" +:+ String zero_byte "v".

(** A broadcast exchange with a connection and a short-circuit to write to. *)
Definition ex_broadcast2 : exchange :=
  Exchange "uid" sendBroadcast [dbgEncoder 1 "m"; encShort 0] [] [closeConn 1; closeShort 0] 0 0.

(** An exchange under the partition policy. *)
Definition ex_partition : exchange :=
  Exchange "uid" sendPartition [encShort 0] [] [] 0 0.

(** A scatter exchange that holds no encoder. *)
Definition ex_scatter0 : exchange := Exchange "uid" sendScatter [] [] [] 0 0.

(** A store whose short-circuit 0 is closed and drained, and whose
    connection 3 has ended with an error of message EOF. *)
Definition store_done : store nat :=
  store_set_conn
    (store_set_sc store0 0 (ShortCircuit (Chan [] 1000 true) true))
    3 (NetConn [] None [] (Some (errorString "EOF")) None false).

(** An exchange reading from that short-circuit and that connection. *)
Definition ex_reading : exchange :=
  Exchange "uid" sendBroadcast [] [dbgDecoder 3 "m"; decShort 0] [] 0 0.

(** A distributer that hands out a new connection at each [Connect]. *)
Definition connect_fresh (d : nat) (_ _ : string) : nat * (conn + error) := (S d, inl d).

(** A distributer whose [Connect] always fails. *)
Definition connect_down (d : unit) (_ _ : string) : unit * (conn + error) :=
  (d, inr (errorString "down")).

(** The node a, master of a cluster of three. *)
Definition ctx_a : context := Context_ ["a"; "b"; "c"] "a" "a" None.

(** A cluster of the single node a, under a context that is cancelled. *)
Definition ctx_cancelled : context :=
  Context_ ["a"] "a" "a" (Some (errorString "context canceled")).

(** A broadcast exchange as it arrives on a node. *)
Definition ex_broadcast : exchange := Exchange "uid" sendBroadcast [] [] [] 0 0.

(** A store whose connection 7 is cut: writes to it fail, and so do reads. *)
Definition store_cut7 : store nat :=
  store_set_conn store0 7
    (NetConn [] (Some (errorString "broken pipe")) []
       (Some (errorString "connection reset")) None false).

(** A network where no address can be dialed. *)
Definition net_down : network :=
  Network (λ _, Some (errorString "refused")) 0 (λ _, EmptyString) (λ _, None).

(** A network where every write fails. *)
Definition net_broken : network :=
  Network (λ _, None) 0 (λ _, EmptyString) (λ _, Some (errorString "broken pipe")).

(** A wrapper distributed from a over three nodes, and a codec for it. *)
Definition dr_a : distRunner unit :=
  distributer_Distribute (NewDistributer "a") tt ["a"; "b"; "c"].

Definition gob_ok (_ : distRunner unit) : string * error + string := inr "gob".

(** A codec that sends its type descriptors and then fails on the value. *)
Definition gob_fails (_ : distRunner unit) : string * error + string :=
  inl ("descriptors", errorString "gob: type not registered").

(** A codec that fails before it sends anything. *)
Definition gob_refuses (_ : distRunner unit) : string * error + string :=
  inl (EmptyString, errorString "gob: cannot encode nil pointer").

(** * Properties *)

Section Properties.

Context {Dataset : Type}.

(** ** PassThrough *)

Lemma passthrough_range_spec (q : list Dataset) (cl : bool) (out : list Dataset) :
  passthrough_range q cl out = if cl then Returns (out ++ q, None) else Blocks.
Proof.
  revert out. induction q as [|d q IH]; intros out; simpl.
  - by rewrite app_nil_r.
  - rewrite IH. by rewrite <- app_assoc.
Qed.

(** C1. Whatever finite sequence [S] of datasets is delivered on the input
    stream before it is closed, [Run] of the passthrough runner sends
    exactly [S], in order, on its output stream and returns nil; its
    [Returns] is the one-element list holding [Wildcard]. *)
Theorem passthrough_identity {Type_ : Type} (Wildcard : Type_)
    (S : list Dataset) (n : nat) (out : list Dataset) :
  passthrough_Run (Chan S n true) out = Returns (out ++ S, None)
  ∧ passthrough_Returns Wildcard = [Wildcard].
Proof.
  split; [|reflexivity].
  unfold passthrough_Run; simpl. by rewrite passthrough_range_spec.
Qed.

(** ** Short-circuit *)

Lemma sc_inv_step (sc sc' : shortCircuit Dataset) :
  sc_inv sc → sc_step sc sc' → sc_inv sc'.
Proof.
  intros [Hc Hn] Hstep. destruct sc as [[q n cl] fl]; simpl in *; subst.
  inversion Hstep as [? ? ? H|? ? ? ? H|? ? ? ? ? H]; subst; clear Hstep.
  - unfold shortCircuit_Close, chan_close in H; simpl in H.
    destruct cl; simpl in H; inversion H; subst; by split.
  - unfold shortCircuit_Encode, chan_send in H; simpl in H.
    destruct cl; simpl in H; [inversion H; subst; by split|].
    case_decide; simpl in H; inversion H; subst; by split.
  - unfold shortCircuit_Decode, chan_recv in H; simpl in H.
    destruct q as [|v q]; simpl in H.
    + destruct cl; simpl in H; inversion H; subst; by split.
    + inversion H; subst; by split.
Qed.

Lemma sc_step_Closed (sc sc' : shortCircuit Dataset) :
  Closed sc = true → sc_step sc sc' → Closed sc' = true.
Proof.
  intros Hc Hstep. destruct sc as [[q n cl] fl]; simpl in *; subst.
  inversion Hstep as [? ? ? H|? ? ? ? H|? ? ? ? ? H]; subst; clear Hstep.
  - unfold shortCircuit_Close in H; simpl in H. by inversion H.
  - unfold shortCircuit_Encode in H; simpl in H. by inversion H.
  - unfold shortCircuit_Decode, chan_recv in H; simpl in H.
    destruct q as [|v q]; simpl in H.
    + destruct cl; simpl in H; by inversion H.
    + by inversion H.
Qed.

Lemma sc_rtc_Closed (sc sc' : shortCircuit Dataset) :
  Closed sc = true → rtc sc_step sc sc' → Closed sc' = true.
Proof. intros Hc H. induction H; eauto using sc_step_Closed. Qed.

Lemma sc_rtc_inv (sc sc' : shortCircuit Dataset) :
  sc_inv sc → rtc sc_step sc sc' → sc_inv sc'.
Proof. intros Hc H. induction H; eauto using sc_inv_step. Qed.

Lemma sc_inv_reachable (sc : shortCircuit Dataset) : sc_reachable sc → sc_inv sc.
Proof. apply sc_rtc_inv. by split. Qed.

Lemma shortCircuit_Close_inv (sc : shortCircuit Dataset) :
  sc_inv sc →
  shortCircuit_Close sc = Returns (ShortCircuit (Chan (buf (C sc)) (cap (C sc)) true) true, None).
Proof.
  intros [Hc _]. destruct sc as [[q n cl] fl]; simpl in *; subst.
  unfold shortCircuit_Close, chan_close; simpl. by destruct cl.
Qed.

(** C8. On a short-circuit made by [newShortCircuit], [Close] returns nil;
    from then on, whatever else is done with it, every [Encode] fails with
    the closed-pipe error and leaves it as it is, a [Decode] with no
    envelope pending returns EOF, and a further [Close] returns nil and
    changes nothing. *)
Theorem shortCircuit_after_Close (sc : shortCircuit Dataset) :
  sc_reachable sc →
  ∃ sc1, shortCircuit_Close sc = Returns (sc1, None)
    ∧ ∀ sc2, rtc sc_step sc1 sc2 →
        (∀ e, shortCircuit_Encode sc2 e = Returns (sc2, Some io_ErrClosedPipe))
        ∧ (buf (C sc2) = [] →
           ∀ req, shortCircuit_Decode sc2 req = Returns (sc2, req, Some io_EOF))
        ∧ shortCircuit_Close sc2 = Returns (sc2, None).
Proof.
  intros Hr. pose proof (sc_inv_reachable _ Hr) as Hinv.
  eexists. split; [by apply shortCircuit_Close_inv|].
  intros sc2 Hsteps.
  assert (Hcl : Closed sc2 = true) by (eapply sc_rtc_Closed; [|exact Hsteps]; done).
  assert (Hinv2 : sc_inv sc2).
  { eapply sc_rtc_inv; [|exact Hsteps]. destruct Hinv; by split. }
  destruct Hinv2 as [Hc2 _]. destruct sc2 as [[q n cl] fl]; simpl in *; subst.
  split; [|split].
  - intros e. reflexivity.
  - intros -> req. reflexivity.
  - reflexivity.
Qed.

Lemma shortCircuit_Encodes_open (sc : shortCircuit Dataset) (es : list (dataReq Dataset)) :
  Closed sc = false → closed (C sc) = false →
  length (buf (C sc)) + length es ≤ cap (C sc) →
  shortCircuit_Encodes sc es
  = Returns (ShortCircuit (Chan (buf (C sc) ++ es) (cap (C sc)) false) false, None).
Proof.
  revert sc. induction es as [|e es IH]; intros [[q n cl] fl]; simpl; intros -> -> Hlen.
  - by rewrite app_nil_r.
  - unfold shortCircuit_Encode, chan_send; simpl.
    case_decide; [|lia]. simpl.
    rewrite IH; simpl; try done.
    + by rewrite <- app_assoc.
    + rewrite length_app; simpl; lia.
Qed.

Lemma shortCircuit_Decodes_closed (q : list (dataReq Dataset)) (n : nat) (fl : bool)
    (req0 : dataReq Dataset) :
  shortCircuit_Decodes (length q) (ShortCircuit (Chan q n true) fl) req0
  = Returns (ShortCircuit (Chan [] n true) fl, map (λ e, (e, None)) q).
Proof.
  induction q as [|[v] q IH]; simpl; [done|].
  unfold shortCircuit_Decode, chan_recv; simpl. by rewrite IH.
Qed.

(** C10. The envelopes encoded on a short-circuit before [Close] are not
    lost: after [Close], as many [Decode] calls as envelopes are pending
    return them all, in the order they were encoded, and only the next
    [Decode] returns EOF. *)
Theorem shortCircuit_Close_keeps_pending (sc : shortCircuit Dataset)
    (es : list (dataReq Dataset)) (req0 : dataReq Dataset) :
  sc_reachable sc → Closed sc = false →
  length (buf (C sc)) + length es ≤ 1000 →
  ∃ sc1 sc2 sc3,
    shortCircuit_Encodes sc es = Returns (sc1, None)
    ∧ shortCircuit_Close sc1 = Returns (sc2, None)
    ∧ shortCircuit_Decodes (length (buf (C sc) ++ es)) sc2 req0
      = Returns (sc3, map (λ e, (e, None)) (buf (C sc) ++ es))
    ∧ shortCircuit_Decode sc3 req0 = Returns (sc3, req0, Some io_EOF).
Proof.
  intros Hr Hopen Hlen. destruct (sc_inv_reachable _ Hr) as [Hc Hn].
  rewrite Hopen in Hc. symmetry in Hc.
  do 3 eexists. split; [|split; [|split]].
  - apply shortCircuit_Encodes_open; [done..|]. by rewrite Hn.
  - reflexivity.
  - simpl. apply shortCircuit_Decodes_closed.
  - reflexivity.
Qed.


(** ** Scatter *)

Lemma succ_mod (c n : nat) :
  1 ≤ n → (c + 1) mod n = if decide (c mod n + 1 = n) then 0 else c mod n + 1.
Proof.
  intros Hn. rewrite <- Nat.Div0.add_mod_idemp_l.
  pose proof (Nat.mod_upper_bound c n ltac:(lia)) as Hlt.
  case_decide as Heq.
  - rewrite Heq. apply Nat.Div0.mod_same.
  - apply Nat.mod_small. lia.
Qed.

Lemma next_enc_lookup (ex : exchange) :
  1 ≤ length (encs ex) → is_Some (encs ex !! next_enc ex).
Proof.
  intros Hn. apply lookup_lt_is_Some. unfold next_enc.
  apply Nat.mod_upper_bound. lia.
Qed.

(** Under scatter a [Send] is one [Encode], on the encoder at the
    advanced cursor. *)
Lemma exchange_Send_scatter (ex : exchange) (h : store Dataset) (d : Dataset) :
  SendTo ex = sendScatter → 1 ≤ length (encs ex) →
  ∃ enc, encs ex !! next_enc ex = Some enc
    ∧ exchange_Send ex h d
      = ([EvEncode (next_enc ex) (DataReq (PDataset d))],
         '(r, h') ← encoder_Encode enc (DataReq (PDataset d)) h ;;;
         Returns (r, set_encsNext ex (next_enc ex), h')).
Proof.
  intros Hs Hn. destruct (next_enc_lookup ex Hn) as [enc Henc].
  exists enc. split; [exact Henc|].
  unfold exchange_Send, exchange_EncodeNext. rewrite decide_True by done.
  destruct (decide (length (encs ex) = 0)) as [|_]; [lia|].
  simpl. by rewrite Henc.
Qed.

(** The first of a run of sends, taken apart. *)
Lemma exchange_Sends_scatter_cons (ex : exchange) (h : store Dataset) (d : Dataset)
    (ds : list Dataset) t rs ex' h' :
  SendTo ex = sendScatter → 1 ≤ length (encs ex) →
  exchange_Sends ex h (d :: ds) = (t, Returns (rs, ex', h')) →
  ∃ enc r h1 t1 rs1,
    encs ex !! next_enc ex = Some enc
    ∧ encoder_Encode enc (DataReq (PDataset d)) h = Returns (r, h1)
    ∧ exchange_Sends (set_encsNext ex (next_enc ex)) h1 ds = (t1, Returns (rs1, ex', h'))
    ∧ t = EvEncode (next_enc ex) (DataReq (PDataset d)) :: t1
    ∧ rs = r :: rs1.
Proof.
  intros Hs Hn Hrun. simpl in Hrun.
  destruct (exchange_Send_scatter ex h d Hs Hn) as (enc & Henc & Hsend).
  rewrite Hsend in Hrun.
  destruct (encoder_Encode enc _ h) as [| |[r h1]] eqn:Hencode; simpl in Hrun;
    try by inversion Hrun.
  destruct (exchange_Sends (set_encsNext ex (next_enc ex)) h1 ds) as [t1 o1] eqn:Hrest.
  destruct o1 as [| |[[rs1 ex2] h2]]; simpl in Hrun; try by inversion Hrun.
  inversion Hrun; subst. by exists enc, r, h1, t1, rs1.
Qed.

Lemma exchange_Sends_scatter_count (ds : list Dataset) (ex : exchange) (h : store Dataset)
    t rs ex' h' j :
  SendTo ex = sendScatter → 1 ≤ length (encs ex) → j < length (encs ex) →
  exchange_Sends ex h ds = (t, Returns (rs, ex', h')) →
  length (encoded_to j t)
  = (length ds + length (encs ex) - hops (length (encs ex)) (encsNext ex mod length (encs ex)) j)
    / length (encs ex).
Proof.
  revert ex h t rs ex' h'.
  induction ds as [|d ds IH]; intros ex h t rs ex' h' Hs Hn Hj Hrun.
  - pose proof (Nat.mod_upper_bound (encsNext ex) (length (encs ex)) ltac:(lia)).
    simpl in Hrun. inversion Hrun; subst; simpl.
    symmetry. apply Nat.div_small.
    unfold hops. case_decide; lia.
  - destruct (exchange_Sends_scatter_cons ex h d ds t rs ex' h' Hs Hn Hrun)
      as (enc & r & h1 & t1 & rs1 & _ & _ & Hrest & -> & _).
    specialize (IH (set_encsNext ex (next_enc ex)) _ _ _ _ _ Hs Hn Hj Hrest).
    simpl in IH.
    set (n := length (encs ex)) in *.
    pose proof (Nat.mod_upper_bound (encsNext ex) n ltac:(lia)) as Hc.
    assert (Hnext : next_enc ex = if decide (encsNext ex mod n + 1 = n) then 0
                                  else encsNext ex mod n + 1).
    { unfold next_enc. by apply succ_mod. }
    assert (Hlt : next_enc ex < n) by (rewrite Hnext; case_decide; lia).
    rewrite (Nat.mod_small _ _ Hlt) in IH.
    simpl. destruct (decide (next_enc ex = j)) as [Heq|Hne]; simpl; rewrite IH.
    + assert (hops n (next_enc ex) j = n) as ->
        by (unfold hops; destruct (decide (_ < _)); lia).
      assert (hops n (encsNext ex mod n) j = 1) as ->.
      { unfold hops. rewrite Hnext in Heq. repeat case_decide; lia. }
      replace (length ds + n - n) with (length ds) by lia.
      replace (S (length ds + n) - 1) with (length ds + 1 * n) by lia.
      rewrite Nat.div_add by lia. lia.
    + f_equal. unfold hops. rewrite Hnext in Hne |- *. repeat case_decide; lia.
Qed.

(** An [Encode] that returns nil adds the envelope to what its encoder
    holds and leaves the other objects of the store alone. *)
Lemma encoder_Encode_holds (enc : encoder) (req : dataReq Dataset) (h h' : store Dataset) :
  encoder_Encode enc req h = Returns (None, h') →
  encoder_holds enc h' = encoder_holds enc h ++ [req]
  ∧ ∀ enc', encoder_target enc' ≠ encoder_target enc →
      encoder_holds enc' h' = encoder_holds enc' h.
Proof.
  destruct enc as [l|c msg]; simpl.
  - unfold shortCircuit_Encode, chan_send.
    destruct (scs h l) as [[q n cl] fl] eqn:Hsc; simpl.
    destruct fl; simpl; [intros Heq; by inversion Heq|].
    destruct cl; simpl; [intros Heq; by inversion Heq|].
    case_decide; simpl; intros Heq; inversion Heq; subst; clear Heq.
    split.
    + simpl. by rewrite fn_lookup_insert.
    + intros [l'|c' msg'] Hne; simpl; [|done].
      rewrite fn_lookup_insert_ne; [done|]. intros ->. by apply Hne.
  - unfold gob_Encode. destruct (conns_ h c) as [sn we rc re ce hu] eqn:Hc; simpl.
    destruct hu; simpl; [intros Heq; by inversion Heq|].
    destruct we; simpl; intros Heq; inversion Heq; subst; clear Heq.
    split.
    + simpl. by rewrite fn_lookup_insert.
    + intros [l'|c' msg'] Hne; simpl; [done|].
      rewrite fn_lookup_insert_ne; [done|]. intros ->. by apply Hne.
Qed.

Lemma exchange_Sends_scatter_holds (ds : list Dataset) (ex : exchange) (h : store Dataset)
    t rs ex' h' j enc :
  SendTo ex = sendScatter → 1 ≤ length (encs ex) →
  exchange_Sends ex h ds = (t, Returns (rs, ex', h')) →
  Forall (λ r, r = None) rs →
  NoDup (encoder_target <$> encs ex) →
  encs ex !! j = Some enc →
  encoder_holds enc h' = encoder_holds enc h ++ encoded_to j t.
Proof.
  revert ex h t rs ex' h'.
  induction ds as [|d ds IH]; intros ex h t rs ex' h' Hs Hn Hrun Hok Hnd Hj.
  - simpl in Hrun. inversion Hrun; subst; simpl. by rewrite app_nil_r.
  - destruct (exchange_Sends_scatter_cons ex h d ds t rs ex' h' Hs Hn Hrun)
      as (enc1 & r & h1 & t1 & rs1 & Henc1 & Hencode & Hrest & -> & ->).
    apply Forall_cons_1 in Hok as [-> Hok].
    specialize (IH (set_encsNext ex (next_enc ex)) _ _ _ _ _ Hs Hn Hrest Hok Hnd Hj).
    destruct (encoder_Encode_holds _ _ _ _ Hencode) as [Hsame Hother].
    rewrite IH. simpl.
    destruct (decide (next_enc ex = j)) as [Heq|Hne]; simpl.
    + rewrite Heq, Hj in Henc1. inversion Henc1; subst enc1.
      rewrite Hsame. by rewrite <- app_assoc.
    + rewrite Hother; [done|]. intros Htarget.
      apply Hne. eapply NoDup_lookup; [exact Hnd|..].
      * rewrite list_lookup_fmap, Henc1. reflexivity.
      * rewrite list_lookup_fmap, Hj. simpl. by rewrite Htarget.
Qed.

(** C2. On an exchange with the scatter policy and [N >= 1] encoders, each
    call to [Send] is one call to [Encode], on the encoder at the cursor
    advanced by one modulo [N], and leaves the cursor there; so after [M]
    consecutive calls to [Send] each encoder has been handed either the
    floor or the ceiling of [M / N] datasets. When these calls all
    returned nil and the encoders write to different objects, what each
    was handed is what it has come to hold. *)
Theorem scatter_round_robin (ex : exchange) (h : store Dataset) (ds : list Dataset)
    t rs ex' h' :
  SendTo ex = sendScatter → 1 ≤ length (encs ex) →
  exchange_Sends ex h ds = (t, Returns (rs, ex', h')) →
  (∀ (h0 : store Dataset) (d : Dataset),
      ∃ enc, encs ex !! ((encsNext ex + 1) mod length (encs ex)) = Some enc
        ∧ exchange_Send ex h0 d
          = ([EvEncode (next_enc ex) (DataReq (PDataset d))],
             '(r, h1) ← encoder_Encode enc (DataReq (PDataset d)) h0 ;;;
             Returns (r, set_encsNext ex (next_enc ex), h1)))
  ∧ (∀ j, j < length (encs ex) →
      length (encoded_to j t) = length ds / length (encs ex)
      ∨ length (encoded_to j t) = (length ds + length (encs ex) - 1) / length (encs ex))
  ∧ (Forall (λ r, r = None) rs → NoDup (encoder_target <$> encs ex) →
     ∀ j enc, encs ex !! j = Some enc →
       encoder_holds enc h' = encoder_holds enc h ++ encoded_to j t).
Proof.
  intros Hs Hn Hrun. split; [|split].
  - intros h0 d. by apply exchange_Send_scatter.
  - intros j Hj.
    rewrite (exchange_Sends_scatter_count ds ex h t rs ex' h' j Hs Hn Hj Hrun).
    set (n := length (encs ex)) in *. set (m := length ds).
    pose proof (Nat.mod_upper_bound (encsNext ex) n ltac:(lia)) as Hc.
    set (k := hops n (encsNext ex mod n) j).
    assert (Hk : 1 ≤ k ≤ n) by (unfold k, hops; case_decide; lia).
    assert (H1 : m / n ≤ (m + n - k) / n) by (apply Nat.Div0.div_le_mono; lia).
    assert (H2 : (m + n - k) / n ≤ (m + n - 1) / n) by (apply Nat.Div0.div_le_mono; lia).
    assert (H3 : (m + n - 1) / n ≤ (m + 1 * n) / n) by (apply Nat.Div0.div_le_mono; lia).
    rewrite Nat.div_add in H3 by lia. lia.
  - intros Hok Hnd j enc Hj.
    by eapply exchange_Sends_scatter_holds.
Qed.

(** ** Receive dispatch *)

(** [DecodeNext], one level of its recursion unfolded. *)
Lemma exchange_DecodeNext_eq (ex : exchange) (h : store Dataset) :
  exchange_DecodeNext ex h =
  if decide (length (decs ex) = 0) then ([], Returns (None, Some io_EOF, ex, h))
  else
    match decs ex !! next_dec ex with
    | None => ([], Panics)
    | Some dec =>
        match decoder_Decode dec (DataReq PNil) h with
        | Blocks => ([EvDecode (next_dec ex)], Blocks)
        | Panics => ([EvDecode (next_dec ex)], Panics)
        | Returns (err, req, h') =>
            match normalize_EOF (decoded_error err (Payload req)) with
            | Some e =>
                if is_io_EOF e then
                  after (EvDecode (next_dec ex))
                    (exchange_DecodeNext (set_decs ex (delete (next_dec ex) (decs ex))) h')
                else ([EvDecode (next_dec ex)], Returns (None, Some e, ex, h'))
            | None =>
                ([EvDecode (next_dec ex)],
                 DecodeNext_data ex h' (next_dec ex) (Payload req))
            end
        end
    end.
Proof.
  funelim (exchange_DecodeNext ex h).
  all: repeat match goal with
       | H : decide _ = _ |- _ => rewrite H
       | H : decs _ !! _ = _ |- _ => rewrite H
       | H : decoder_Decode _ _ _ = _ |- _ => rewrite H
       | H : normalize_EOF _ = _ |- _ => rewrite H
       end; reflexivity.
Qed.

Lemma next_dec_lookup (ex : exchange) :
  decs ex ≠ [] → is_Some (decs ex !! next_dec ex).
Proof.
  intros Hne. apply lookup_lt_is_Some. unfold next_dec.
  apply Nat.mod_upper_bound. destruct (decs ex); simpl; [done|lia].
Qed.

Lemma delete_next_dec_length (ex : exchange) :
  decs ex ≠ [] → length (delete (next_dec ex) (decs ex)) < length (decs ex).
Proof.
  intros Hne. rewrite length_delete by by apply next_dec_lookup.
  destruct (decs ex); simpl; [done|lia].
Qed.

(** [DecodeNext] calls [Decode] at most once for each decoder it holds. *)
Lemma exchange_DecodeNext_calls (n : nat) (ex : exchange) (h : store Dataset) :
  length (decs ex) = n →
  length (decoded_from (exchange_DecodeNext ex h).1) ≤ n.
Proof.
  revert ex h. induction n as [n IH] using lt_wf_ind. intros ex h Hn.
  rewrite exchange_DecodeNext_eq.
  destruct (decide (length (decs ex) = 0)) as [|Hlen]; [simpl; lia|].
  assert (Hne : decs ex ≠ []) by (by destruct (decs ex)).
  destruct (next_dec_lookup ex Hne) as [dec ->].
  destruct (decoder_Decode dec _ h) as [| |[[err req] h']]; [simpl; lia..|].
  destruct (normalize_EOF _) as [e|]; [|simpl; lia].
  destruct (is_io_EOF e); [|simpl; lia].
  pose proof (delete_next_dec_length ex Hne) as Hlt.
  specialize (IH (length (delete (next_dec ex) (decs ex))) ltac:(lia)
                 (set_decs ex (delete (next_dec ex) (decs ex))) h' eq_refl).
  simpl in *. lia.
Qed.

(** C4. [DecodeNext] returns EOF when the exchange holds no decoder.
    Otherwise it decodes one envelope from the decoder at the cursor
    advanced by one modulo the number of decoders. When that decode yields
    EOF, or yields an error payload whose message is the string EOF, it
    removes that decoder and runs again on the decoders that remain, a
    strictly shorter list, with the cursor where it was; when it yields a
    dataset, the dataset is returned and the cursor the exchange then
    stores is the old cursor plus one modulo the number of decoders, over
    the same decoders. All in all it calls [Decode] no more often than
    there are decoders: the recursion ends. *)
Theorem DecodeNext_round_robin (ex : exchange) (h : store Dataset) :
  (decs ex = [] → exchange_DecodeNext ex h = ([], Returns (None, Some io_EOF, ex, h)))
  ∧ (decs ex ≠ [] →
     ∃ dec, decs ex !! ((decsNext ex + 1) mod length (decs ex)) = Some dec
       ∧ ∀ err req h', decoder_Decode dec (DataReq PNil) h = Returns (err, req, h') →
           ((err = Some io_EOF ∨ (err = None ∧ Payload req = PErrMsg "EOF")) →
              exchange_DecodeNext ex h
              = after (EvDecode (next_dec ex))
                  (exchange_DecodeNext (set_decs ex (delete (next_dec ex) (decs ex))) h')
              ∧ length (decs (set_decs ex (delete (next_dec ex) (decs ex))))
                < length (decs ex)
              ∧ decs (set_decs ex (delete (next_dec ex) (decs ex)))
                = delete ((decsNext ex + 1) mod length (decs ex)) (decs ex)
              ∧ decsNext (set_decs ex (delete (next_dec ex) (decs ex))) = decsNext ex)
           ∧ (∀ d, err = None → Payload req = PDataset d →
              exchange_DecodeNext ex h
              = ([EvDecode (next_dec ex)],
                 Returns (Some d, None, set_decsNext ex (next_dec ex), h'))
              ∧ (∀ t d' err' ex' h'',
                   exchange_DecodeNext ex h = (t, Returns (d', err', ex', h'')) →
                   t = [EvDecode ((decsNext ex + 1) mod length (decs ex))]
                   ∧ d' = Some d ∧ err' = None
                   ∧ decsNext ex' = (decsNext ex + 1) mod length (decs ex)
                   ∧ decs ex' = decs ex
                   ∧ encs ex' = encs ex ∧ encsNext ex' = encsNext ex
                   ∧ conns ex' = conns ex)))
  ∧ length (decoded_from (exchange_DecodeNext ex h).1) ≤ length (decs ex).
Proof.
  split; [|split].
  - intros Hnil. rewrite exchange_DecodeNext_eq, Hnil. reflexivity.
  - intros Hne. destruct (next_dec_lookup ex Hne) as [dec Hdec].
    exists dec. split; [exact Hdec|].
    intros err req h' Hdecode.
    assert (Hlen : length (decs ex) ≠ 0) by (by destruct (decs ex)).
    split.
    + intros Heof. split_and!; [|by apply delete_next_dec_length|reflexivity..].
      rewrite exchange_DecodeNext_eq, decide_False, Hdec, Hdecode by done.
      destruct Heof as [->|[-> ->]]; reflexivity.
    + intros d -> Hd.
      assert (Hrun : exchange_DecodeNext ex h
                     = ([EvDecode (next_dec ex)],
                        Returns (Some d, None, set_decsNext ex (next_dec ex), h'))).
      { rewrite exchange_DecodeNext_eq, decide_False, Hdec, Hdecode, Hd by done.
        reflexivity. }
      split; [exact Hrun|].
      intros t d' err' ex' h'' Hres. rewrite Hrun in Hres.
      inversion Hres; subst. split_and!; reflexivity.
  - by apply exchange_DecodeNext_calls.
Qed.

(** ** Errors across an exchange *)

Lemma EncodeAll_range_trace (l : list encoder) (i : nat) (req : dataReq Dataset)
    (err : option error) (h : store Dataset) t r h' :
  EncodeAll_range l i req err h = (t, Returns (r, h')) →
  t = imap (λ k _, EvEncode (i + k) req) l.
Proof.
  revert i err h t. induction l as [|enc l IH]; intros i err h t Hrun; simpl in *.
  - by inversion Hrun.
  - destruct (encoder_Encode enc req h) as [| |[err1 h1]]; try by inversion Hrun.
    destruct (EncodeAll_range l (S i) req (keep_last err err1) h1) as [t1 o1] eqn:Hrest.
    unfold after in Hrun. simpl in Hrun. inversion Hrun; subst.
    apply IH in Hrest. subst. rewrite Nat.add_0_r. f_equal.
    apply imap_ext. intros k x _. simpl. f_equal. lia.
Qed.

(** C6. An error [e] whose message is not the string EOF is wrapped by
    [EncodeAll] in an [errMsg] envelope carrying the message of [e], and
    that envelope is what every encoder is handed; a peer whose
    [DecodeNext] decodes that envelope returns no dataset and an error
    whose message is the message of [e]. So it is for a node that sends
    to itself through its short-circuit. *)
Theorem remote_error_message (e : error) :
  Error e ≠ "EOF" →
  EncodeAll_req (Dataset := Dataset) (inr e) = DataReq (PErrMsg (Error e))
  ∧ (∀ (ex : exchange) (h : store Dataset) t r h',
       exchange_EncodeAll ex h (inr e) = (t, Returns (r, h')) →
       t = imap (λ k _, EvEncode k (DataReq (PErrMsg (Error e)))) (encs ex))
  ∧ (∀ (ex : exchange) (h : store Dataset) dec h',
       decs ex !! next_dec ex = Some dec →
       decoder_Decode dec (DataReq PNil) h
       = Returns (None, EncodeAll_req (inr e), h') →
       ∃ err, exchange_DecodeNext ex h
              = ([EvDecode (next_dec ex)], Returns (None, Some err, ex, h'))
         ∧ Error err = Error e)
  ∧ (∀ (ex : exchange) (h : store Dataset) l,
       encs ex = [encShort l] → decs ex = [decShort l] →
       scs h l = newShortCircuit →
       ∃ t r h1 t' err h2,
         exchange_EncodeAll ex h (inr e) = (t, Returns (r, h1))
         ∧ exchange_DecodeNext ex h1 = (t', Returns (None, Some err, ex, h2))
         ∧ Error err = Error e).
Proof.
  intros Hmsg. split; [reflexivity|]. split; [|split].
  - intros ex h t r h' Hrun. unfold exchange_EncodeAll in Hrun.
    by apply EncodeAll_range_trace in Hrun.
  - intros ex h dec h' Hdec Hdecode.
    assert (Hlen : length (decs ex) ≠ 0).
    { apply lookup_lt_Some in Hdec. lia. }
    exists (errMsg (Error e)). split; [|reflexivity].
    rewrite exchange_DecodeNext_eq, decide_False, Hdec, Hdecode by done.
    simpl. rewrite decide_False by done. reflexivity.
  - intros ex h l Henc Hdec Hsc.
    unfold exchange_EncodeAll. rewrite Henc. simpl.
    unfold shortCircuit_Encode. rewrite Hsc. simpl.
    do 6 eexists. split; [reflexivity|].
    rewrite exchange_DecodeNext_eq, Hdec. simpl.
    unfold next_dec. rewrite Hdec. simpl.
    unfold shortCircuit_Decode, store_set_sc. simpl.
    rewrite fn_lookup_insert. simpl.
    rewrite decide_False by done. simpl. split; reflexivity.
Qed.

Section Gather.
Context {Distributer : Type}
        (dist_Connect : Distributer → string → string → Distributer * (conn + error)).

(** ** Gather *)

(** The target loop over the master alone, on another node: it creates no
    short-circuit, attaches no decoder and leaves the store alone. *)
Lemma Init_targets_other (this master : string) (st : init_state Dataset Distributer) :
  this ≠ master →
  let '(r, st') := Init_targets dist_Connect this [master] st in
  i_shortCircuit st' = i_shortCircuit st
  ∧ i_store st' = i_store st
  ∧ decs (i_ex st') = decs (i_ex st).
Proof.
  intros Hne. simpl. rewrite decide_False by done.
  destruct (dist_Connect _ _ _) as [d [c|err]]; simpl; done.
Qed.

Lemma exchange_Init_gather_other (ctx : context) (ex : exchange) (h : store Dataset)
    (d : Distributer) :
  SendTo ex = sendGather → ThisNode ctx ≠ MasterNode ctx →
  i_shortCircuit (exchange_Init dist_Connect ctx ex h d).2 = None
  ∧ i_store (exchange_Init dist_Connect ctx ex h d).2 = h
  ∧ decs (i_ex (exchange_Init dist_Connect ctx ex h d).2) = decs ex.
Proof.
  intros Hs Hne. unfold exchange_Init, Init_targetNodes.
  rewrite decide_True by done.
  pose proof (Init_targets_other (ThisNode ctx) (MasterNode ctx)
                (InitState ex h d ∅ None) Hne) as H.
  destruct (Init_targets _ _ _ _) as [[err|] st']; simpl in *.
  - exact H.
  - destruct H as (Hsc & Hh & Hd). rewrite Hsc. simpl. by rewrite Hsc.
Qed.

Lemma exchange_Send_decs (ex : exchange) (h : store Dataset) (d : Dataset) t r ex' h' :
  exchange_Send ex h d = (t, Returns (r, ex', h')) → decs ex' = decs ex.
Proof.
  unfold exchange_Send, exchange_EncodeNext, exchange_EncodePartition.
  destruct (decide (SendTo ex = sendScatter)).
  - destruct (decide (length (encs ex) = 0)); [intros Heq; by inversion Heq|].
    simpl. destruct (encs _ !! _) as [enc|]; [|intros Heq; by inversion Heq].
    destruct (encoder_Encode enc _ h) as [| |[r1 h1]]; simpl; intros Heq; by inversion Heq.
  - destruct (decide (SendTo ex = sendPartition)); [intros Heq; by inversion Heq|].
    destruct (exchange_EncodeAll ex h (inl d)) as [t1 [| |[r1 h1]]]; simpl;
      intros Heq; by inversion Heq.
Qed.

(** With no decoder, what the run has sent on its output never grows. *)
Lemma run_step_no_decoders (ctx : context) (s s' : run_state Dataset) :
  decs (r_ex s) = [] → run_step ctx s s' →
  decs (r_ex s') = [] ∧ r_out s' = r_out s.
Proof.
  intros Hd Hstep.
  inversion Hstep; subst; simpl; try done.
  all: try match goal with
       | H : exchange_Receive _ _ = _ |- _ =>
           unfold exchange_Receive in H;
           rewrite exchange_DecodeNext_eq, Hd in H; simpl in H;
           inversion H; subst; clear H; try done
       end.
  match goal with H : exchange_Send _ _ _ = _ |- _ =>
    apply exchange_Send_decs in H; split; [congruence|done] end.
Qed.

Lemma run_steps_no_decoders (ctx : context) (s s' : run_state Dataset) :
  decs (r_ex s) = [] → rtc (run_step ctx) s s' → r_out s' = r_out s.
Proof.
  intros Hd Hsteps. induction Hsteps as [|x y z Hxy _ IH]; [done|].
  destruct (run_step_no_decoders ctx x y Hd Hxy) as [Hd' Ho].
  rewrite IH by done. exact Ho.
Qed.

(** C3. [Init] of an exchange with the gather policy takes the master
    node alone as its targets. On a node other than the master it creates
    no short-circuit and attaches no decoder; and the run of an exchange
    that came with none, however its goroutines are scheduled and however
    far it gets, sends nothing on its output stream. *)
Theorem gather_non_master_output_empty (ctx : context) (ex : exchange)
    (h : store Dataset) (d : Distributer) :
  SendTo ex = sendGather → ThisNode ctx ≠ MasterNode ctx →
  Init_targetNodes ctx ex = [MasterNode ctx]
  ∧ i_shortCircuit (exchange_Init dist_Connect ctx ex h d).2 = None
  ∧ next_sc (i_store (exchange_Init dist_Connect ctx ex h d).2) = next_sc h
  ∧ decs (i_ex (exchange_Init dist_Connect ctx ex h d).2) = decs ex
  ∧ (decs ex = [] →
     ∀ (inp : chan Dataset) (out : list Dataset) (s : run_state Dataset),
       rtc (run_step ctx) (exchange_Run_init dist_Connect ctx ex h d inp out) s →
       r_out s = out).
Proof.
  intros Hs Hne.
  destruct (exchange_Init_gather_other ctx ex h d Hs Hne) as (Hsc & Hh & Hd).
  split; [|split; [|split; [|split]]]; try done.
  - unfold Init_targetNodes. by rewrite decide_True.
  - by rewrite Hh.
  - intros Hnil inp out s Hsteps.
    apply run_steps_no_decoders in Hsteps.
    + rewrite Hsteps. unfold exchange_Run_init.
      by destruct (exchange_Init _ _ _ _ _) as [[err|] st].
    + unfold exchange_Run_init.
      destruct (exchange_Init _ _ _ _ _) as [[err|] st]; simpl in *; congruence.
Qed.

End Gather.

End Properties.

(** ** Null-terminated strings *)

Lemma string_app_assoc (a b c : string) : (a +:+ b) +:+ c = a +:+ (b +:+ c).
Proof. induction a as [|x a IH]; simpl; congruence. Qed.

Lemma string_app_nil_r (a : string) : a +:+ EmptyString = a.
Proof. induction a as [|x a IH]; simpl; congruence. Qed.

Lemma plain_app (a b : string) : plain (a +:+ b) = plain a && plain b.
Proof.
  induction a as [|x a IH]; simpl; [done|].
  rewrite IH. by rewrite andb_assoc.
Qed.

Lemma readStr_loop_plain (s rest acc : string) (e : option error) :
  plain s = true →
  readStr_loop (s +:+ String zero_byte rest) e acc
  = Returns (acc +:+ s, None, Reader rest e).
Proof.
  revert acc. induction s as [|b s IH]; intros acc Hs; simpl in *.
  - by rewrite string_app_nil_r.
  - apply andb_prop in Hs as [Hb Hs]. apply andb_prop in Hb as [Hpos Hlt].
    apply N.ltb_lt in Hpos.
    rewrite decide_False.
    2:{ intros ->. unfold zero_byte in Hpos. simpl in Hpos. lia. }
    rewrite IH by done. unfold string_of_byte. rewrite Hlt.
    by rewrite string_app_assoc.
Qed.

Lemma readStr_plain (s rest : string) (e : option error) :
  plain s = true →
  readStr (Reader (s +:+ String zero_byte rest) e) = Returns (s, None, Reader rest e).
Proof.
  intros Hs. unfold readStr. cbn [pending r_end].
  by rewrite readStr_loop_plain.
Qed.

(** On strings of ASCII bytes other than zero, writing then reading is the
    identity. *)
Lemma writeStr_readStr_plain (s : string) :
  plain s = true → writeStr_readStr_roundtrip s.
Proof.
  intros Hs rest e. unfold readStr, writeStr, writer_Write. simpl.
  rewrite string_app_assoc. simpl.
  by rewrite readStr_loop_plain.
Qed.

(** C9, at the string made of the bytes 195 and 169 (a small e with acute
    accent in UTF-8), which holds no zero byte: [readStr] turns each byte
    of 128 or more into the two bytes that encode the character of that
    code, and returns four bytes where two were written. *)
Theorem readStr_mangles_high_bytes :
  let s := String (Ascii.ascii_of_nat 195) (String (Ascii.ascii_of_nat 169) EmptyString) in
  zero_free s = true
  ∧ readStr (Reader (written (writeStr (Writer EmptyString None) s).1) None)
    = Returns (String (Ascii.ascii_of_nat 195) (String (Ascii.ascii_of_nat 131)
                (String (Ascii.ascii_of_nat 194) (String (Ascii.ascii_of_nat 169)
                   EmptyString))),
               None, Reader EmptyString None)
  ∧ ¬ writeStr_readStr_roundtrip s.
Proof.
  split; [reflexivity|]. split; [reflexivity|].
  intros H. specialize (H EmptyString None). vm_compute in H. discriminate H.
Qed.

(** ** Rendezvous *)

Lemma dials_asym (A B : string) : dials A B = true → dials B A = false.
Proof.
  unfold dials, String.ltb. rewrite (String.compare_antisym A B).
  by destruct (String.compare B A).
Qed.

Lemma dials_total (A B : string) : A ≠ B → dials A B = true ∨ dials B A = true.
Proof.
  intros Hne. unfold dials, String.ltb. rewrite (String.compare_antisym A B).
  destruct (String.compare B A) eqn:Hc; simpl; auto.
  apply String.compare_eq_iff in Hc. congruence.
Qed.

Lemma distributer_Connect_dial (A B uid : string) (net : network)
    (mA : gmap string (list conn)) :
  dials A B = true → network_ready net B →
  ∃ netA,
    distributer_Connect (Distributer_ A mA) net B uid
    = (Distributer_ A mA, netA, ConnectResult (Some (next_conn net)) None 0)
    ∧ wire netA (next_conn net)
      = "D" +:+ String zero_byte (rendezvous_key A uid +:+ String zero_byte EmptyString).
Proof.
  intros Hd [Hdial Hw]. unfold distributer_Connect. simpl. rewrite Hd.
  unfold dial. rewrite Hdial.
  unfold conn_writeStr, writeStr, writer_Write. simpl. rewrite Hw. simpl.
  rewrite !fn_lookup_insert. simpl. rewrite Hw. simpl.
  eexists. split; [reflexivity|]. simpl.
  by rewrite fn_lookup_insert.
Qed.

Lemma distributer_Serve_data (d : distributer) (key : string) (c : conn) :
  plain key = true →
  distributer_Serve d
    (Reader ("D" +:+ String zero_byte (key +:+ String zero_byte EmptyString)) None) c
  = (Distributer_ (addr d)
       (<[key := default [] (connsMap (distributer_connCh d key) !! key) ++ [c]]>
          (connsMap (distributer_connCh d key))),
     ServeOffers key).
Proof.
  intros Hk. unfold distributer_Serve.
  rewrite (readStr_plain "D" _ None eq_refl). cbv beta iota.
  rewrite decide_True by done.
  rewrite (readStr_plain key EmptyString None Hk). cbv beta iota.
  destruct d as [a m]. unfold distributer_connCh. simpl.
  by destruct (m !! key).
Qed.

Lemma distributer_Connect_wait (d : distributer) (net : network) (to uid : string)
    (c : conn) (q : list conn) :
  dials (addr d) to = false →
  connsMap d !! rendezvous_key to uid = Some (c :: q) →
  distributer_Connect d net to uid
  = (Distributer_ (addr d) (<[rendezvous_key to uid := q]> (connsMap d)), net,
     ConnectResult (Some c) None 0).
Proof.
  intros Hd Hq. unfold distributer_Connect. rewrite Hd.
  unfold distributer_connCh. rewrite Hq. simpl. by rewrite Hq.
Qed.

Lemma rendezvous_plain (A B uid : string) (net : network)
    (mA mB : gmap string (list conn)) :
  dials A B = true → plain A = true → plain uid = true →
  network_ready net B → no_offer mB (rendezvous_key A uid) →
  rendezvous A B uid net mA mB.
Proof.
  intros Hd HA Hu Hnet Hno. split; [done|]. split; [by apply dials_asym|].
  destruct (distributer_Connect_dial A B uid net mA Hd Hnet) as (netA & Hc & Hw).
  assert (Hk : plain (rendezvous_key A uid) = true).
  { unfold rendezvous_key. rewrite !plain_app, HA, Hu. reflexivity. }
  exists (next_conn net), (Distributer_ A mA), netA. eexists.
  split; [exact Hc|]. split; [exact Hw|]. rewrite Hw. split.
  - by apply distributer_Serve_data.
  - eexists. apply distributer_Connect_wait; simpl.
    + by apply dials_asym.
    + rewrite lookup_insert_eq. f_equal.
      unfold distributer_connCh, no_offer in *. simpl.
      destruct (mB !! rendezvous_key A uid) as [l|] eqn:Hl; simpl in *.
      * by rewrite Hl, Hno.
      * by rewrite lookup_insert_eq.
Qed.

(** C5, amended. For two distinct node addresses and a uid, all made of
    ASCII bytes other than zero, on a network where dialing and writing
    succeed and with no earlier connection on offer under the keys: the
    node whose address is the lesser dials and writes the tag D, then its
    own address, a colon and the uid; [Serve] on the other node reads
    that key and offers the connection on its channel; and the other
    node, waiting on the channel of the dialer's address, a colon and the
    uid, obtains that very connection. *)
Theorem rendezvous_same_connection (A B uid : string) (net : network)
    (mA mB : gmap string (list conn)) :
  A ≠ B → plain A = true → plain B = true → plain uid = true →
  network_ready net A → network_ready net B →
  no_offer mA (rendezvous_key B uid) → no_offer mB (rendezvous_key A uid) →
  rendezvous A B uid net mA mB ∨ rendezvous B A uid net mB mA.
Proof.
  intros Hne HA HB Hu HnA HnB HoA HoB.
  destruct (dials_total A B Hne) as [Hd|Hd].
  - left. by apply rendezvous_plain.
  - right. by apply rendezvous_plain.
Qed.

(** C7, amended. The waiting side of [Connect], with no connection on
    offer under its key, returns after one second with no connection and
    an error; the message of that error starts with the package's prefix. *)
Theorem Connect_timeout (d : distributer) (net : network) (to uid : string) :
  dials (addr d) to = false →
  no_offer (connsMap d) (rendezvous_key to uid) →
  times_out_with "ep: connect timeout; no incoming conn" d net to uid.
Proof.
  intros Hd Hno. unfold times_out_with, distributer_Connect. rewrite Hd.
  unfold distributer_connCh, no_offer in *.
  destruct (connsMap d !! rendezvous_key to uid) as [l|] eqn:Hl; simpl in *.
  - rewrite Hl, Hno. by do 2 eexists.
  - rewrite lookup_insert_eq. by do 2 eexists.
Qed.

(** * The properties at work *)

Lemma scatter_round_robin_witness :
  SendTo ex_scatter3 = sendScatter
  ∧ 1 ≤ length (encs ex_scatter3)
  ∧ ∃ t rs ex' h',
      exchange_Sends ex_scatter3 store0 [10; 20; 30; 40; 50; 60; 70]
      = (t, Returns (rs, ex', h'))
      ∧ (length (encoded_to 1 t) = 7 / 3 ∨ length (encoded_to 1 t) = (7 + 3 - 1) / 3)
      ∧ encoder_holds (encShort 1) h'
        = [DataReq (PDataset 10); DataReq (PDataset 40); DataReq (PDataset 70)].
Proof.
  split; [reflexivity|]. split; [simpl; lia|].
  do 4 eexists. split; [reflexivity|].
  destruct (scatter_round_robin ex_scatter3 store0 [10; 20; 30; 40; 50; 60; 70]
              _ _ _ _ eq_refl (le_S _ _ (le_S _ _ (le_n 1))) eq_refl)
    as (_ & Hcount & Hholds).
  split.
  - apply (Hcount 1). simpl. lia.
  - assert (Hnd : NoDup (encoder_target <$> encs ex_scatter3)).
    { apply (bool_decide_unpack _). by vm_compute. }
    rewrite (Hholds ltac:(repeat constructor) Hnd 1 (encShort 1) eq_refl).
    reflexivity.
Defined.

Lemma gather_non_master_output_empty_witness :
  SendTo ex_gather = sendGather
  ∧ ThisNode ctx_b ≠ MasterNode ctx_b
  ∧ Init_targetNodes ctx_b ex_gather = ["a"]
  ∧ ∀ (inp : chan nat) (s : run_state nat),
      rtc (run_step ctx_b) (exchange_Run_init connect7 ctx_b ex_gather store0 tt inp []) s →
      r_out s = [].
Proof.
  assert (Hne : ThisNode ctx_b ≠ MasterNode ctx_b) by (simpl; discriminate).
  split; [reflexivity|]. split; [exact Hne|].
  destruct (gather_non_master_output_empty connect7 ctx_b ex_gather store0 tt eq_refl Hne)
    as (Ht & _ & _ & _ & Hout).
  split; [exact Ht|].
  intros inp s. exact (Hout eq_refl inp [] s).
Defined.

Lemma remote_error_message_witness :
  Error (errorString "boom") ≠ "EOF"
  ∧ ∃ err : error,
      (exchange_DecodeNext (Exchange "uid" sendBroadcast [] [dbgDecoder 3 "m"] [] 0 0)
         (store_set_conn store0 3
            (NetConn [] None [DataReq (PErrMsg "boom")] None None false))).2
      = Returns (None, Some err,
                 Exchange "uid" sendBroadcast [] [dbgDecoder 3 "m"] [] 0 0,
                 store_set_conn
                   (store_set_conn store0 3
                      (NetConn [] None [DataReq (PErrMsg "boom")] None None false))
                   3 (NetConn [] None [] None None false))
      ∧ Error err = "boom".
Proof.
  assert (Hne : Error (errorString "boom") ≠ "EOF") by (simpl; discriminate).
  split; [exact Hne|].
  destruct (remote_error_message (Dataset := nat) (errorString "boom") Hne)
    as (_ & _ & Hdec & _).
  destruct (Hdec (Exchange "uid" sendBroadcast [] [dbgDecoder 3 "m"] [] 0 0)
              (store_set_conn store0 3
                 (NetConn [] None [DataReq (PErrMsg "boom")] None None false))
              (dbgDecoder 3 "m") _ eq_refl eq_refl) as (err & Hrun & Herr).
  exists err. rewrite Hrun. split; [reflexivity|exact Herr].
Defined.

Lemma shortCircuit_after_Close_witness :
  sc_reachable (@newShortCircuit nat)
  ∧ ∃ sc1, shortCircuit_Close (@newShortCircuit nat) = Returns (sc1, None)
      ∧ shortCircuit_Encode sc1 (DataReq (PDataset 5))
        = Returns (sc1, Some io_ErrClosedPipe).
Proof.
  assert (Hr : sc_reachable (@newShortCircuit nat)) by apply rtc_refl.
  split; [exact Hr|].
  destruct (shortCircuit_after_Close newShortCircuit Hr) as (sc1 & Hc & Hafter).
  exists sc1. split; [exact Hc|].
  exact (proj1 (Hafter sc1 (rtc_refl _ _)) _).
Defined.

Lemma shortCircuit_Close_keeps_pending_witness :
  sc_reachable (@newShortCircuit nat)
  ∧ Closed (@newShortCircuit nat) = false
  ∧ length (buf (C (@newShortCircuit nat))) + length [DataReq (PDataset 1); DataReq (PDataset 2)]
    ≤ 1000
  ∧ ∃ sc1 sc2 sc3,
      shortCircuit_Encodes newShortCircuit [DataReq (PDataset 1); DataReq (PDataset 2)]
      = Returns (sc1, None)
      ∧ shortCircuit_Close sc1 = Returns (sc2, None)
      ∧ shortCircuit_Decodes 2 sc2 (DataReq PNil)
        = Returns (sc3, [(DataReq (PDataset 1), None); (DataReq (PDataset 2), None)])
      ∧ shortCircuit_Decode sc3 (DataReq PNil) = Returns (sc3, DataReq PNil, Some io_EOF).
Proof.
  assert (Hr : sc_reachable (@newShortCircuit nat)) by apply rtc_refl.
  assert (Hlen : length (buf (C (@newShortCircuit nat)))
                 + length [DataReq (PDataset 1); DataReq (PDataset 2)] ≤ 1000)
    by (simpl; lia).
  split; [exact Hr|]. split; [reflexivity|]. split; [exact Hlen|].
  exact (shortCircuit_Close_keeps_pending newShortCircuit
           [DataReq (PDataset 1); DataReq (PDataset 2)] (DataReq PNil) Hr eq_refl Hlen).
Defined.

Lemma rendezvous_same_connection_witness :
  "a" ≠ "b" ∧ plain "a" = true ∧ plain "b" = true ∧ plain "uid" = true
  ∧ network_ready net0 "a" ∧ network_ready net0 "b"
  ∧ no_offer ∅ (rendezvous_key "b" "uid") ∧ no_offer ∅ (rendezvous_key "a" "uid")
  ∧ (rendezvous "a" "b" "uid" net0 ∅ ∅ ∨ rendezvous "b" "a" "uid" net0 ∅ ∅).
Proof.
  assert (Hne : "a" ≠ "b") by discriminate.
  assert (Hn : ∀ to, network_ready net0 to) by (intros to; split; reflexivity).
  assert (Ho : ∀ k, no_offer ∅ k) by (intros k; reflexivity).
  repeat (split; [first [exact Hne | reflexivity | apply Hn | apply Ho]|]).
  exact (rendezvous_same_connection "a" "b" "uid" net0 ∅ ∅ Hne eq_refl eq_refl eq_refl
           (Hn _) (Hn _) (Ho _) (Ho _)).
Defined.

(** With a uid that holds a zero byte the rendezvous fails, on a network
    where all else goes well: [Serve] reads the key up to that byte and
    offers the connection under a key the waiting side does not look up. *)
Lemma rendezvous_counterexample :
  "a" ≠ "b"
  ∧ network_ready net0 "a" ∧ network_ready net0 "b"
  ∧ no_offer ∅ (rendezvous_key "b" uid_nul) ∧ no_offer ∅ (rendezvous_key "a" uid_nul)
  ∧ (distributer_Serve (Distributer_ "b" ∅)
       (Reader ("D" +:+ String zero_byte
                  (rendezvous_key "a" uid_nul +:+ String zero_byte EmptyString)) None) 0).2
    = ServeOffers "a:u"
  ∧ ¬ (rendezvous "a" "b" uid_nul net0 ∅ ∅ ∨ rendezvous "b" "a" uid_nul net0 ∅ ∅).
Proof.
  split; [discriminate|]. do 4 (split; [by vm_compute|]).
  split; [by vm_compute|].
  intros [H|H].
  - destruct H as (_ & _ & c & dA & netA & dB & _ & Hw & Hs & _).
    rewrite Hw in Hs. apply (f_equal snd) in Hs. vm_compute in Hs. discriminate Hs.
  - destruct H as (Hd & _). vm_compute in Hd. discriminate Hd.
Qed.

Lemma Connect_timeout_witness :
  dials (addr (Distributer_ "b" ∅)) "a" = false
  ∧ no_offer (connsMap (Distributer_ "b" ∅)) (rendezvous_key "a" "uid")
  ∧ times_out_with "ep: connect timeout; no incoming conn" (Distributer_ "b" ∅) net0 "a" "uid".
Proof.
  split; [reflexivity|]. split; [reflexivity|].
  exact (Connect_timeout (Distributer_ "b" ∅) net0 "a" "uid" eq_refl eq_refl).
Defined.

(** The message of the timeout error is not the bare sentence: it carries
    the package's prefix. *)
Lemma Connect_timeout_counterexample :
  dials (addr (Distributer_ "b" ∅)) "a" = false
  ∧ no_offer (connsMap (Distributer_ "b" ∅)) (rendezvous_key "a" "uid")
  ∧ ¬ times_out_with "connect timeout; no incoming conn" (Distributer_ "b" ∅) net0 "a" "uid".
Proof.
  split; [reflexivity|]. split; [reflexivity|].
  intros (d' & err & Hc & Hmsg).
  vm_compute in Hc. inversion Hc; subst. vm_compute in Hmsg. discriminate Hmsg.
Qed.

(** Reduce the state a run has reached before taking its next step. *)
Ltac run_normalize :=
  match goal with
  | |- rtc _ ?s _ => let s' := eval vm_compute in s in change s with s'
  end.

Ltac run_with step := run_normalize; eapply rtc_l; [eapply step; reflexivity|].

(** A gather exchange on the node b, fed two datasets: they go to the
    master over connection 7, followed by the EOF notice; the run returns
    nil and has sent nothing on its output. *)
Example gather_run_on_b :
  ∃ s, rtc (run_step ctx_b)
         (exchange_Run_init connect7 ctx_b ex_gather store0 tt (Chan [1; 2] 0 true) []) s
    ∧ r_returned s = true ∧ r_err s = None ∧ r_out s = []
    ∧ sent (conns_ (r_store s) 7)
      = [DataReq (PDataset 1); DataReq (PDataset 2); DataReq (PErrMsg "EOF")].
Proof.
  eexists. split.
  - run_with @step_inp_data.
    run_with @step_inp_data.
    run_with @step_inp_closed.
    run_normalize. eapply rtc_l.
    { eapply step_receive_eof; [reflexivity|].
      unfold exchange_Receive. rewrite exchange_DecodeNext_eq. reflexivity. }
    run_with @step_errs.
    run_with @step_return.
    run_normalize. apply rtc_refl.
  - repeat split; reflexivity.
Qed.

(** Two decoders, the first a closed and drained short-circuit, the
    second a connection with a dataset waiting: [DecodeNext] drops the
    first and returns the dataset of the second. *)
Example DecodeNext_skips_finished :
  exchange_DecodeNext
    (Exchange "uid" sendBroadcast [] [dbgDecoder 3 "m"; decShort 0] [] 0 0)
    (store_set_conn
       (store_set_sc store0 0 (ShortCircuit (Chan [] 1000 true) true))
       3 (NetConn [] None [DataReq (PDataset 9)] None None false))
  = ([EvDecode 1; EvDecode 0],
     Returns (Some 9, None,
              Exchange "uid" sendBroadcast [] [dbgDecoder 3 "m"] [] 0 0,
              store_set_conn
                (store_set_sc
                   (store_set_conn
                      (store_set_sc store0 0 (ShortCircuit (Chan [] 1000 true) true))
                      3 (NetConn [] None [DataReq (PDataset 9)] None None false))
                   0 (ShortCircuit (Chan [] 1000 true) true))
                3 (NetConn [] None [] None None false))).
Proof.
  rewrite exchange_DecodeNext_eq. simpl.
  rewrite exchange_DecodeNext_eq. reflexivity.
Qed.

(** On ASCII text the framing round-trips. *)
Example readStr_ascii :
  readStr (Reader (written (writeStr (Writer EmptyString None) "10.0.0.1:5551").1) None)
  = Returns ("10.0.0.1:5551", None, Reader EmptyString None).
Proof. reflexivity. Qed.

(** * Further properties of the code *)

Section MoreProperties.

Context {Dataset : Type}.

(** ** Short-circuit, open *)

Lemma sc_bounded_step (sc sc' : shortCircuit Dataset) :
  sc_bounded sc → sc_step sc sc' → sc_bounded sc'.
Proof.
  unfold sc_bounded. intros Hb Hstep. destruct sc as [[q n cl] fl]; simpl in *.
  inversion Hstep as [? ? ? H|? ? ? ? H|? ? ? ? ? H]; subst; clear Hstep.
  - unfold shortCircuit_Close, chan_close in H; simpl in H.
    destruct fl, cl; simpl in H; inversion H; subst; done.
  - unfold shortCircuit_Encode, chan_send in H; simpl in H.
    destruct fl; simpl in H; [inversion H; subst; done|].
    destruct cl; simpl in H; [inversion H|].
    case_decide; simpl in H; inversion H; subst; simpl.
    rewrite length_app; simpl; lia.
  - unfold shortCircuit_Decode, chan_recv in H; simpl in H.
    destruct q as [|v q]; simpl in H.
    + destruct cl; simpl in H; inversion H; subst; done.
    + inversion H; subst; simpl in *; lia.
Qed.

Lemma sc_bounded_reachable (sc : shortCircuit Dataset) :
  sc_reachable sc → sc_bounded sc.
Proof.
  intros Hr. assert (Hnew : sc_bounded (@newShortCircuit Dataset)).
  { unfold sc_bounded. simpl. lia. }
  unfold sc_reachable in Hr. induction Hr; eauto using sc_bounded_step.
Qed.

Lemma shortCircuit_Decodes_open (q : list (dataReq Dataset)) (n : nat) (fl : bool)
    (req0 : dataReq Dataset) :
  shortCircuit_Decodes (length q) (ShortCircuit (Chan q n false) fl) req0
  = Returns (ShortCircuit (Chan [] n false) fl, map (λ e, (e, None)) q).
Proof.
  induction q as [|[v] q IH]; simpl; [done|].
  unfold shortCircuit_Decode, chan_recv; simpl. by rewrite IH.
Qed.

(** X1. On an open short-circuit the envelopes come out in the order they
    went in; once they are all out the short-circuit is as [newShortCircuit]
    made it, and the next [Decode] does not return EOF: it blocks. *)
Theorem shortCircuit_open_fifo (sc : shortCircuit Dataset)
    (es : list (dataReq Dataset)) (req0 : dataReq Dataset) :
  sc_reachable sc → Closed sc = false →
  length (buf (C sc)) + length es ≤ 1000 →
  ∃ sc1,
    shortCircuit_Encodes sc es = Returns (sc1, None)
    ∧ shortCircuit_Decodes (length (buf (C sc) ++ es)) sc1 req0
      = Returns (newShortCircuit, map (λ e, (e, None)) (buf (C sc) ++ es))
    ∧ shortCircuit_Decode (Dataset := Dataset) newShortCircuit req0 = Blocks.
Proof.
  intros Hr Hopen Hlen. destruct (sc_inv_reachable _ Hr) as [Hc Hn].
  rewrite Hopen in Hc. symmetry in Hc.
  eexists. split; [|split].
  - apply shortCircuit_Encodes_open; [done..|]. by rewrite Hn.
  - rewrite Hn. apply shortCircuit_Decodes_open.
  - reflexivity.
Qed.

(** X2. A short-circuit never holds more than a thousand envelopes: with
    room left an [Encode] on an open one queues the envelope last and
    returns nil, and with a thousand pending it does not return. *)
Theorem shortCircuit_capacity (sc : shortCircuit Dataset) (e : dataReq Dataset) :
  sc_reachable sc →
  length (buf (C sc)) ≤ 1000
  ∧ (Closed sc = false → length (buf (C sc)) < 1000 →
     shortCircuit_Encode sc e
     = Returns (ShortCircuit (Chan (buf (C sc) ++ [e]) 1000 false) false, None))
  ∧ (Closed sc = false → length (buf (C sc)) = 1000 →
     shortCircuit_Encode sc e = Blocks).
Proof.
  intros Hr. destruct (sc_inv_reachable _ Hr) as [Hc Hn].
  pose proof (sc_bounded_reachable _ Hr) as Hb. unfold sc_bounded in Hb.
  rewrite Hn in Hb. split; [exact Hb|].
  destruct sc as [[q n cl] fl]; simpl in *; subst.
  unfold shortCircuit_Encode, chan_send; simpl.
  split; intros -> Hq; simpl.
  - by rewrite decide_True.
  - rewrite decide_False by lia. reflexivity.
Qed.

(** ** Send, policy by policy *)

(** X3. Under scatter with at least one encoder, consecutive sends hand
    the datasets over one by one in the order they were sent, each to one
    encoder of the list, none twice and none left out: the send number [k]
    (from zero) goes to the encoder at the start cursor plus [k] plus one,
    modulo the number of encoders. The list of encoders stays as it was.
    After at least one send the cursor the exchange stores is exactly the
    start cursor plus the number of sends, modulo the number of encoders;
    with no send at all the exchange is left as it was, its cursor
    unreduced. *)
Theorem scatter_conservation (ds : list Dataset) (ex : exchange) (h : store Dataset)
    t rs ex' h' :
  SendTo ex = sendScatter → 1 ≤ length (encs ex) →
  exchange_Sends ex h ds = (t, Returns (rs, ex', h')) →
  encoded t = map (λ d, DataReq (PDataset d)) ds
  ∧ length t = length ds
  ∧ (∀ i req, EvEncode i req ∈ t → i < length (encs ex))
  ∧ encs ex' = encs ex
  ∧ encsNext ex' mod length (encs ex) = (encsNext ex + length ds) mod length (encs ex)
  ∧ (ds ≠ [] → encsNext ex' = (encsNext ex + length ds) mod length (encs ex))
  ∧ (ds = [] → ex' = ex ∧ h' = h)
  ∧ t = imap (λ k d, EvEncode ((encsNext ex + 1 + k) mod length (encs ex))
                       (DataReq (PDataset d))) ds.
Proof.
  revert ex h t rs ex' h'.
  induction ds as [|d ds IH]; intros ex h t rs ex' h' Hs Hn Hrun.
  - simpl in Hrun. inversion Hrun; subst. simpl.
    rewrite Nat.add_0_r. split_and!; try done.
    intros i req Hin. by apply elem_of_nil in Hin.
  - destruct (exchange_Sends_scatter_cons ex h d ds t rs ex' h' Hs Hn Hrun)
      as (enc & r & h1 & t1 & rs1 & Henc & _ & Hrest & -> & _).
    destruct (IH (set_encsNext ex (next_enc ex)) _ _ _ _ _ Hs Hn Hrest)
      as (Henc' & Hlen & Hidx & Hencs & Hcur & Hexact & Hnone & Htrace).
    simpl in *. split_and!.
    + by rewrite Henc'.
    + by rewrite Hlen.
    + intros i req Hin. apply elem_of_cons in Hin as [Heq|Hin].
      * inversion Heq; subst. by apply lookup_lt_Some in Henc.
      * by eapply Hidx.
    + exact Hencs.
    + rewrite Hcur. unfold next_enc.
      rewrite Nat.Div0.add_mod_idemp_l. f_equal. lia.
    + intros _. destruct ds as [|d' ds].
      * destruct (Hnone eq_refl) as [-> _]. simpl. reflexivity.
      * rewrite Hexact by done. unfold next_enc.
        rewrite Nat.Div0.add_mod_idemp_l. f_equal. simpl. lia.
    + done.
    + rewrite Htrace. unfold next_enc. f_equal.
      * by rewrite Nat.add_0_r.
      * apply imap_ext. intros k x _. simpl. f_equal.
        rewrite <- !Nat.add_assoc, Nat.Div0.add_mod_idemp_l. f_equal. lia.
Qed.

(** What [EncodeAll] does to the store when it returns nil: each encoder,
    if they write to different objects, holds the envelope once more. *)
Lemma EncodeAll_range_holds (l : list encoder) (i : nat) (req : dataReq Dataset)
    (err : option error) (h : store Dataset) t h' :
  EncodeAll_range l i req err h = (t, Returns (None, h')) →
  NoDup (encoder_target <$> l) →
  err = None
  ∧ (∀ enc, enc ∈ l → encoder_holds enc h' = encoder_holds enc h ++ [req])
  ∧ (∀ enc, encoder_target enc ∉ encoder_target <$> l →
       encoder_holds enc h' = encoder_holds enc h).
Proof.
  revert i err h t. induction l as [|enc l IH]; intros i err h t Hrun Hnd; simpl in *.
  - inversion Hrun; subst. split; [done|]. split; [|done].
    intros enc Hin. by apply elem_of_nil in Hin.
  - destruct (encoder_Encode enc req h) as [| |[err1 h1]] eqn:Hencode;
      try by inversion Hrun.
    destruct (EncodeAll_range l (S i) req (keep_last err err1) h1) as [t1 o1] eqn:Hrest.
    unfold after in Hrun. simpl in Hrun. inversion Hrun; subst; clear Hrun.
    pose proof (NoDup_cons_1_1 _ _ Hnd) as Hnotin.
    apply NoDup_cons_1_2 in Hnd.
    destruct (IH _ _ _ _ Hrest Hnd) as (Hkeep & Hin & Hout).
    assert (err1 = None ∧ err = None) as [-> ->].
    { destruct err1; simpl in Hkeep; [discriminate|done]. }
    destruct (encoder_Encode_holds _ _ _ _ Hencode) as [Hsame Hother].
    split; [done|]. split.
    + intros enc' Hin'. apply elem_of_cons in Hin' as [->|Hin'].
      * rewrite Hout by done. exact Hsame.
      * rewrite Hin by done. rewrite Hother; [done|].
        intros Heq. apply Hnotin. rewrite <- Heq.
        by apply list_elem_of_fmap_2.
    + intros enc' Hnot. apply not_elem_of_cons in Hnot as [Hne Hnot].
      rewrite Hout by done. by apply Hother.
Qed.

(** X4. Under gather, broadcast, or any policy that is neither scatter
    nor partition, a [Send] that returns has handed the dataset to every
    encoder, first to last, whatever each of them answered, and has left
    the exchange as it was; when it returned nil and the encoders write to
    different objects, each of them holds the dataset once more. *)
Theorem broadcast_fan_out (ex : exchange) (h : store Dataset) (d : Dataset)
    t r ex' h' :
  SendTo ex ≠ sendScatter → SendTo ex ≠ sendPartition →
  exchange_Send ex h d = (t, Returns (r, ex', h')) →
  ex' = ex
  ∧ t = imap (λ k _, EvEncode k (DataReq (PDataset d))) (encs ex)
  ∧ (r = None → NoDup (encoder_target <$> encs ex) →
     ∀ enc, enc ∈ encs ex →
       encoder_holds enc h' = encoder_holds enc h ++ [DataReq (PDataset d)]).
Proof.
  intros Hs Hp. unfold exchange_Send.
  rewrite !decide_False by done.
  destruct (exchange_EncodeAll ex h (inl d)) as [t1 o1] eqn:Hall.
  destruct o1 as [| |[r1 h1]]; simpl; intros Heq; inversion Heq; subst; clear Heq.
  unfold exchange_EncodeAll in Hall. split; [done|]. split.
  - by apply EncodeAll_range_trace in Hall.
  - intros -> Hnd enc Hin.
    destruct (EncodeAll_range_holds _ _ _ _ _ _ _ Hall Hnd) as (_ & Hholds & _).
    by apply Hholds.
Qed.

(** X5. Under the partition policy sending does nothing: every [Send]
    returns nil, no encoder is called, and the exchange and the store stay
    as they were; the datasets go nowhere. *)
Theorem partition_sends_nothing (ds : list Dataset) (ex : exchange) (h : store Dataset) :
  SendTo ex = sendPartition →
  exchange_Sends ex h ds = ([], Returns (replicate (length ds) None, ex, h)).
Proof.
  intros Hp. induction ds as [|d ds IH]; simpl; [done|].
  unfold exchange_Send. rewrite decide_False by (rewrite Hp; done).
  rewrite decide_True by done. unfold exchange_EncodePartition.
  rewrite IH. reflexivity.
Qed.

(** X6. Under scatter with no encoder at all every [Send] fails with the
    closed-pipe error, and nothing else happens. *)
Theorem scatter_without_encoders (ds : list Dataset) (ex : exchange) (h : store Dataset) :
  SendTo ex = sendScatter → encs ex = [] →
  exchange_Sends ex h ds
  = ([], Returns (replicate (length ds) (Some io_ErrClosedPipe), ex, h)).
Proof.
  intros Hs Hnil. induction ds as [|d ds IH]; simpl; [done|].
  unfold exchange_Send. rewrite decide_True by done.
  unfold exchange_EncodeNext. rewrite Hnil. simpl.
  rewrite IH. reflexivity.
Qed.

End MoreProperties.

Section MoreReceive.

Context {Dataset : Type}.

(** ** Receive dispatch, the other cases *)

(** Whatever [DecodeNext] returns, it has left the encoders, the closers,
    the policy and the outbound cursor alone, and its decoders are among
    those it had, in their order. *)
Lemma exchange_DecodeNext_frame (n : nat) (ex : exchange) (h : store Dataset)
    t od oe ex' h' :
  length (decs ex) = n →
  exchange_DecodeNext ex h = (t, Returns (od, oe, ex', h')) →
  decs ex' `sublist_of` decs ex
  ∧ encs ex' = encs ex ∧ conns ex' = conns ex
  ∧ UID ex' = UID ex ∧ SendTo ex' = SendTo ex ∧ encsNext ex' = encsNext ex.
Proof.
  revert ex h t. induction n as [n IH] using lt_wf_ind. intros ex h t Hn.
  rewrite exchange_DecodeNext_eq.
  destruct (decide (length (decs ex) = 0)) as [|Hlen].
  { intros Heq; inversion Heq; subst. done. }
  assert (Hne : decs ex ≠ []) by (by destruct (decs ex)).
  destruct (next_dec_lookup ex Hne) as [dec ->].
  destruct (decoder_Decode dec _ h) as [| |[[err req] h1]]; try (intros Heq; by inversion Heq).
  destruct (normalize_EOF _) as [e|].
  - destruct (is_io_EOF e).
    + destruct (exchange_DecodeNext (set_decs ex _) h1) as [t1 o1] eqn:Hrec.
      unfold after; simpl. intros Heq; inversion Heq; subst; clear Heq.
      pose proof (delete_next_dec_length ex Hne) as Hlt.
      destruct (IH _ Hlt (set_decs ex (delete (next_dec ex) (decs ex))) h1 t1 eq_refl Hrec)
        as (Hsub & ? & ? & ? & ? & ?).
      split; [|done]. simpl in Hsub. etrans; [exact Hsub|]. apply sublist_delete.
    + intros Heq; inversion Heq; subst. done.
  - unfold DecodeNext_data. destruct (Payload req); intros Heq; inversion Heq; subst.
    done.
Qed.

(** X7. [DecodeNext] returns EOF only once no decoder is left: when it
    returns EOF, the exchange holds no decoder any more and no dataset
    comes with it. *)
Theorem DecodeNext_EOF_means_drained (ex : exchange) (h : store Dataset)
    t od ex' h' :
  exchange_DecodeNext ex h = (t, Returns (od, Some io_EOF, ex', h')) →
  decs ex' = [] ∧ od = None.
Proof.
  remember (length (decs ex)) as n eqn:Hn. symmetry in Hn.
  revert ex h t Hn. induction n as [n IH] using lt_wf_ind. intros ex h t Hn.
  rewrite exchange_DecodeNext_eq.
  destruct (decide (length (decs ex) = 0)) as [Hz|Hlen].
  { intros Heq; inversion Heq; subst. split; [|done]. by destruct (decs ex'). }
  assert (Hne : decs ex ≠ []) by (by destruct (decs ex)).
  destruct (next_dec_lookup ex Hne) as [dec ->].
  destruct (decoder_Decode dec _ h) as [| |[[err req] h1]]; try (intros Heq; by inversion Heq).
  destruct (normalize_EOF _) as [e|].
  - destruct (is_io_EOF e) eqn:He.
    + destruct (exchange_DecodeNext (set_decs ex _) h1) as [t1 o1] eqn:Hrec.
      unfold after; simpl. intros Heq; inversion Heq; subst; clear Heq.
      pose proof (delete_next_dec_length ex Hne) as Hlt.
      exact (IH _ Hlt (set_decs ex (delete (next_dec ex) (decs ex))) h1 t1 eq_refl Hrec).
    + intros Heq; inversion Heq; subst. discriminate He.
  - unfold DecodeNext_data. destruct (Payload req); intros Heq; inversion Heq.
Qed.

(** X8. [DecodeNext] only ever drops decoders: whatever it returns, the
    decoders left are among those it had, in their order, and the
    encoders, the closers, the policy and the outbound cursor are
    untouched; when it returns a dataset, the inbound cursor points at a
    decoder of the list. *)
Theorem DecodeNext_only_drops (ex : exchange) (h : store Dataset) t od oe ex' h' :
  exchange_DecodeNext ex h = (t, Returns (od, oe, ex', h')) →
  decs ex' `sublist_of` decs ex
  ∧ encs ex' = encs ex ∧ conns ex' = conns ex ∧ SendTo ex' = SendTo ex
  ∧ encsNext ex' = encsNext ex
  ∧ (oe = None → is_Some od ∧ decsNext ex' < length (decs ex')).
Proof.
  intros Hrun.
  destruct (exchange_DecodeNext_frame _ ex h t od oe ex' h' eq_refl Hrun)
    as (Hsub & He & Hc & _ & Hs & Hn).
  repeat (split; [done|]).
  intros ->. clear Hsub He Hc Hs Hn.
  remember (length (decs ex)) as n eqn:Hlen. symmetry in Hlen.
  revert ex h t Hlen Hrun. induction n as [n IH] using lt_wf_ind. intros ex h t Hn.
  rewrite exchange_DecodeNext_eq.
  destruct (decide (length (decs ex) = 0)) as [Hz|Hlen].
  { intros Heq; inversion Heq. }
  assert (Hne : decs ex ≠ []) by (by destruct (decs ex)).
  destruct (next_dec_lookup ex Hne) as [dec Hdec]. rewrite Hdec.
  destruct (decoder_Decode dec _ h) as [| |[[err req] h1]]; try (intros Heq; by inversion Heq).
  destruct (normalize_EOF _) as [e|].
  - destruct (is_io_EOF e) eqn:He.
    + destruct (exchange_DecodeNext (set_decs ex _) h1) as [t1 o1] eqn:Hrec.
      unfold after; simpl. intros Heq; inversion Heq; subst; clear Heq.
      pose proof (delete_next_dec_length ex Hne) as Hlt.
      exact (IH _ Hlt (set_decs ex (delete (next_dec ex) (decs ex))) h1 t1 eq_refl Hrec).
    + intros Heq; inversion Heq.
  - unfold DecodeNext_data. destruct (Payload req); intros Heq; inversion Heq; subst.
    split; [done|]. simpl. by apply lookup_lt_Some in Hdec.
Qed.

(** X9. When the decoder at the cursor fails with an error of its own:
    if the message of the error is the string EOF, whatever the error,
    that decoder is dropped and [DecodeNext] carries on with the others;
    otherwise the error is returned as it is and the exchange is left as
    it was, decoder and cursor included. And a payload that decodes well
    but is neither an error nor a dataset makes [DecodeNext] panic. *)
Theorem DecodeNext_other_results (ex : exchange) (h : store Dataset) (dec : decoder) :
  decs ex !! next_dec ex = Some dec →
  (∀ e req h', decoder_Decode dec (DataReq PNil) h = Returns (Some e, req, h') →
     (Error e = "EOF" →
      exchange_DecodeNext ex h
      = after (EvDecode (next_dec ex))
          (exchange_DecodeNext (set_decs ex (delete (next_dec ex) (decs ex))) h'))
     ∧ (Error e ≠ "EOF" →
        exchange_DecodeNext ex h
        = ([EvDecode (next_dec ex)], Returns (None, Some e, ex, h'))))
  ∧ (∀ req h', decoder_Decode dec (DataReq PNil) h = Returns (None, req, h') →
       Payload req = PNil ∨ Payload req = POther →
       exchange_DecodeNext ex h = ([EvDecode (next_dec ex)], Panics)).
Proof.
  intros Hdec.
  assert (Hlen : length (decs ex) ≠ 0).
  { apply lookup_lt_Some in Hdec. lia. }
  split.
  - intros e req h' Hdecode. split; intros Hmsg.
    + rewrite exchange_DecodeNext_eq, decide_False, Hdec, Hdecode by done.
      simpl. rewrite decide_True by done. reflexivity.
    + rewrite exchange_DecodeNext_eq, decide_False, Hdec, Hdecode by done.
      simpl. rewrite decide_False by done.
      destruct e; simpl in *; try reflexivity. done.
  - intros req h' Hdecode Hp.
    rewrite exchange_DecodeNext_eq, decide_False, Hdec, Hdecode by done.
    destruct Hp as [-> | ->]; reflexivity.
Qed.

End MoreReceive.

Section MoreInit.

Context {Dataset : Type} {Distributer : Type}
        (dist_Connect : Distributer → string → string → Distributer * (conn + error)).

(** ** Init, the mesh *)

Lemma Init_targets_connects (this : string) (ns : list string)
    (st : init_state Dataset Distributer) :
  connects dist_Connect → short_registered st →
  ∃ st', Init_targets dist_Connect this ns st = (None, st')
    ∧ length (encs (i_ex st')) = length (encs (i_ex st)) + length ns
    ∧ length (conns (i_ex st')) = length (conns (i_ex st)) + length ns
    ∧ decs (i_ex st') = decs (i_ex st)
    ∧ (∀ n, n ∈ ns → n ≠ this → is_Some (i_connsMap st' !! n))
    ∧ (∀ n, is_Some (i_connsMap st !! n) → is_Some (i_connsMap st' !! n))
    ∧ (∀ n c, i_connsMap st' !! n = Some c →
         i_connsMap st !! n = Some c
         ∨ dbgEncoder c (dbg_msg this n) ∈ encs (i_ex st'))
    ∧ (∀ enc, enc ∈ encs (i_ex st) → enc ∈ encs (i_ex st'))
    ∧ short_registered st'
    ∧ (this ∈ ns → is_Some (i_shortCircuit st')).
Proof.
  intros Hc. revert st. induction ns as [|n ns IH]; intros st Hreg.
  - exists st. simpl. split_and!; try done; try lia.
    + intros n Hin. by apply elem_of_nil in Hin.
    + intros n c Hl. by left.
    + intros Hin. by apply elem_of_nil in Hin.
  - simpl. destruct (decide (n = this)) as [->|Hne].
    + set (st1 := InitState _ _ _ _ _).
      assert (Hreg1 : short_registered st1).
      { intros l Hl. simpl in Hl. inversion Hl; subst. simpl. split; set_solver. }
      destruct (IH st1 Hreg1) as (st' & Hrun & He & Hcl & Hd & Hin & Hpres & Hmap & Hsub & Hreg' & Hthis).
      exists st'. split; [exact Hrun|]. simpl in *.
      rewrite length_app in He, Hcl. simpl in He, Hcl.
      split_and!; try done; try lia.
      * intros m Hm Hmne. apply elem_of_cons in Hm as [->|Hm]; [done|]. by apply Hin.
      * intros enc Henc. apply Hsub. set_solver.
      * intros _. destruct (decide (this ∈ ns)) as [Hi|Hni]; [by apply Hthis|].
        assert (Hkeep : ∀ ms (s : init_state Dataset Distributer) s',
                   this ∉ ms → Init_targets dist_Connect this ms s = (None, s') →
                   i_shortCircuit s' = i_shortCircuit s).
        { clear. induction ms as [|m ms IHm]; intros s s' Hni Hr; simpl in Hr.
          - by inversion Hr.
          - apply not_elem_of_cons in Hni as [Hmne Hni].
            rewrite decide_False in Hr by done.
            destruct (dist_Connect _ _ _) as [d [c|err]]; [|by inversion Hr].
            by rewrite (IHm _ _ Hni Hr). }
        rewrite (Hkeep _ _ _ Hni Hrun). by eexists.
    + destruct (Hc (i_dist st) n (UID (i_ex st))) as (d' & c & Hconn). rewrite Hconn.
      set (st1 := InitState _ _ _ _ _).
      assert (Hreg1 : short_registered st1).
      { intros l Hl. simpl in Hl. destruct (Hreg l Hl). simpl. split; set_solver. }
      destruct (IH st1 Hreg1) as (st' & Hrun & He & Hcl & Hd & Hin & Hpres & Hmap & Hsub & Hreg' & Hthis).
      exists st'. split; [exact Hrun|]. simpl in *.
      rewrite length_app in He, Hcl. simpl in He, Hcl.
      split_and!; try done; try lia.
      * intros m Hm Hmne. apply elem_of_cons in Hm as [->|Hm].
        -- apply Hpres. rewrite lookup_insert_eq. by eexists.
        -- by apply Hin.
      * intros m Hm. apply Hpres. destruct (decide (n = m)) as [->|Hnm].
        -- rewrite lookup_insert_eq. by eexists.
        -- by rewrite lookup_insert_ne.
      * intros m c' Hl. destruct (Hmap m c' Hl) as [Hl1|Hl1]; [|by right].
        destruct (decide (n = m)) as [->|Hnm].
        -- rewrite lookup_insert_eq in Hl1. inversion Hl1; subst.
           right. apply Hsub. set_solver.
        -- rewrite lookup_insert_ne in Hl1 by done. by left.
      * intros enc Henc. apply Hsub. set_solver.
      * intros Hm. apply elem_of_cons in Hm as [->|Hm]; [done|]. by apply Hthis.
Qed.

(** The decoder loop when every other node already has a connection: it
    opens none. *)
Lemma Init_sources_reuse (this : string) (l : nat) (ns : list string)
    (st : init_state Dataset Distributer) :
  (∀ n, n ∈ ns → n ≠ this → is_Some (i_connsMap st !! n)) →
  ∃ new,
    Init_sources dist_Connect this l ns st
    = (None, InitState (set_decs (i_ex st) (decs (i_ex st) ++ new)) (i_store st)
               (i_dist st) (i_connsMap st) (i_shortCircuit st))
    ∧ length new = length ns
    ∧ (this ∈ ns → decShort l ∈ new)
    ∧ (∀ dec, dec ∈ new →
         dec = decShort l
         ∨ ∃ n c, i_connsMap st !! n = Some c ∧ dec = dbgDecoder c (dbg_msg this n)).
Proof.
  revert st. induction ns as [|n ns IH]; intros [ex h d cm sc] Hall; simpl in *.
  - exists []. rewrite app_nil_r. destruct ex; simpl. split_and!; try done.
    + intros Hin. by apply elem_of_nil in Hin.
    + intros dec Hin. by apply elem_of_nil in Hin.
  - destruct (decide (n = this)) as [->|Hne].
    + destruct (IH (InitState (set_decs ex (decs ex ++ [decShort l])) h d cm sc))
        as (new & Hrun & Hlen & Hthis & Hnew).
      { intros m Hm. apply Hall. set_solver. }
      exists (decShort l :: new). rewrite Hrun. simpl.
      rewrite <- app_assoc. simpl. split_and!; try done.
      * by rewrite Hlen.
      * intros _. set_solver.
      * intros dec Hin. apply elem_of_cons in Hin as [->|Hin]; [by left|by apply Hnew].
    + destruct (Hall n ltac:(set_solver) Hne) as [c Hc]. rewrite Hc.
      destruct (IH (InitState (set_decs ex (decs ex ++ [dbgDecoder c (dbg_msg this n)]))
                      h d cm sc)) as (new & Hrun & Hlen & Hthis & Hnew).
      { intros m Hm. apply Hall. set_solver. }
      exists (dbgDecoder c (dbg_msg this n) :: new). rewrite Hrun. simpl.
      rewrite <- app_assoc. simpl. split_and!; try done.
      * by rewrite Hlen.
      * intros Hin. apply elem_of_cons in Hin as [->|Hin]; [done|].
        apply elem_of_cons. right. by apply Hthis.
      * intros dec Hin. apply elem_of_cons in Hin as [->|Hin]; [|by apply Hnew].
        right. by exists n, c.
Qed.

(** X10. Under scatter or broadcast, on a node that is one of the nodes
    and with every [Connect] succeeding, [Init] returns nil with one more
    encoder, one more decoder and one more closer for each node of the
    list: the decoders open no connection of their own. Every decoder it
    adds on a connection reads from a connection one of its encoders
    writes to, and one short-circuit is encoder, decoder and closer at
    once. *)
Theorem Init_mesh (ctx : context) (ex : exchange) (h : store Dataset) (d : Distributer) :
  SendTo ex ≠ sendGather → ThisNode ctx ∈ AllNodes ctx → connects dist_Connect →
  let st := (exchange_Init dist_Connect ctx ex h d).2 in
  (exchange_Init dist_Connect ctx ex h d).1 = None
  ∧ length (encs (i_ex st)) = length (encs ex) + length (AllNodes ctx)
  ∧ length (decs (i_ex st)) = length (decs ex) + length (AllNodes ctx)
  ∧ length (conns (i_ex st)) = length (conns ex) + length (AllNodes ctx)
  ∧ (∀ c msg, dbgDecoder c msg ∈ decs (i_ex st) →
       dbgDecoder c msg ∈ decs ex ∨ dbgEncoder c msg ∈ encs (i_ex st))
  ∧ ∃ l, encShort l ∈ encs (i_ex st) ∧ decShort l ∈ decs (i_ex st)
       ∧ closeShort l ∈ conns (i_ex st).
Proof.
  intros Hs Hthis Hc. unfold exchange_Init, Init_targetNodes.
  rewrite decide_False by done.
  destruct (Init_targets_connects (ThisNode ctx) (AllNodes ctx) (InitState ex h d ∅ None) Hc)
    as (st1 & Hrun & He & Hcl & Hd & Hin & _ & Hmap & _ & Hreg & Hsc).
  { intros l Hl. inversion Hl. }
  rewrite Hrun. destruct (Hsc Hthis) as [l Hl]. rewrite Hl.
  destruct (Init_sources_reuse (ThisNode ctx) l (AllNodes ctx) st1 Hin)
    as (new & Hrun2 & Hlen & Hshort & Hnew).
  rewrite Hrun2. simpl in *. rewrite Hd.
  destruct (Hreg l Hl) as [Henc Hclo].
  split_and!; try done.
  - rewrite length_app. lia.
  - intros c msg Hdec. apply elem_of_app in Hdec as [Hold|Hdec]; [by left|].
    destruct (Hnew _ Hdec) as [Heq|(n & c' & Hc' & Heq)]; [done|].
    inversion Heq; subst. destruct (Hmap n c' Hc') as [Hempty|Hencs]; [|by right].
    by rewrite lookup_empty in Hempty.
  - exists l. split; [done|]. split; [|done].
    apply elem_of_app. right. by apply Hshort.
Qed.

(** The decoder loop with no connection remembered: one [Connect] for
    each other node. *)
Lemma Init_sources_fresh (this : string) (l : nat) (ns : list string)
    (st : init_state Dataset Distributer) :
  connects dist_Connect → i_connsMap st = ∅ →
  ∃ st', Init_sources dist_Connect this l ns st = (None, st')
    ∧ length (decs (i_ex st')) = length (decs (i_ex st)) + length ns
    ∧ length (conns (i_ex st'))
      = length (conns (i_ex st)) + length (filter (λ n, n ≠ this) ns)
    ∧ encs (i_ex st') = encs (i_ex st)
    ∧ i_store st' = i_store st
    ∧ (this ∈ ns → decShort l ∈ decs (i_ex st')).
Proof.
  intros Hc. revert st. induction ns as [|n ns IH]; intros [ex h d cm sc] Hcm;
    simpl in *; subst cm.
  - eexists. split; [reflexivity|]. simpl. split_and!; try done; try lia.
    intros Hin. by apply elem_of_nil in Hin.
  - destruct (decide (n = this)) as [->|Hne].
    + destruct (IH (InitState (set_decs ex (decs ex ++ [decShort l])) h d ∅ sc) eq_refl)
        as (st' & Hrun & Hd & Hcl & He & Hh & Hthis).
      exists st'. split; [exact Hrun|]. simpl in *.
      rewrite length_app in Hd. simpl in Hd.
      rewrite filter_cons_False by (intros Hf; by apply Hf).
      split_and!; try done; try lia.
      intros _. destruct (decide (this ∈ ns)) as [Hi|Hni]; [by apply Hthis|].
      assert (Hkeep : ∀ ms (s s' : init_state Dataset Distributer) x,
                 Init_sources dist_Connect this l ms s = (None, s') →
                 x ∈ decs (i_ex s) → x ∈ decs (i_ex s')).
      { clear -Hc. induction ms as [|m ms IHm]; intros s s' x Hr Hx; simpl in Hr.
        - by inversion Hr; subst.
        - destruct (decide (m = this)).
          + apply (IHm _ _ _ Hr). simpl. set_solver.
          + destruct (i_connsMap s !! m).
            * apply (IHm _ _ _ Hr). simpl. set_solver.
            * destruct (dist_Connect _ _ _) as [d1 [c|err]]; [|by inversion Hr].
              apply (IHm _ _ _ Hr). simpl. set_solver. }
      apply (Hkeep _ _ _ _ Hrun). simpl. set_solver.
    + rewrite lookup_empty.
      destruct (Hc d n (UID ex)) as (d' & c & Hconn). rewrite Hconn.
      destruct (IH (InitState
                      (set_decs (set_conns ex (conns ex ++ [closeConn c]))
                         (decs (set_conns ex (conns ex ++ [closeConn c]))
                          ++ [dbgDecoder c (dbg_msg this n)])) h d' ∅ sc) eq_refl)
        as (st' & Hrun & Hd & Hcl & He & Hh & Hthis).
      exists st'. split; [exact Hrun|]. simpl in *.
      rewrite length_app in Hd, Hcl. simpl in Hd, Hcl.
      rewrite filter_cons_True by done. simpl.
      split_and!; try done; try lia.
      intros Hin. apply elem_of_cons in Hin as [->|Hin]; [done|]. by apply Hthis.
Qed.

(** X11. Under gather on the master itself, with every [Connect]
    succeeding, [Init] returns nil with a single encoder, a fresh
    short-circuit, and with one decoder for each node of the list: it
    opens one connection for each entry of the list that is another node,
    and reads its own datasets from the short-circuit. *)
Theorem Init_gather_master (ctx : context) (ex : exchange) (h : store Dataset)
    (d : Distributer) :
  SendTo ex = sendGather → ThisNode ctx = MasterNode ctx → connects dist_Connect →
  let st := (exchange_Init dist_Connect ctx ex h d).2 in
  (exchange_Init dist_Connect ctx ex h d).1 = None
  ∧ encs (i_ex st) = encs ex ++ [encShort (next_sc h)]
  ∧ scs (i_store st) (next_sc h) = newShortCircuit
  ∧ length (decs (i_ex st)) = length (decs ex) + length (AllNodes ctx)
  ∧ length (conns (i_ex st))
    = length (conns ex) + 1 + length (filter (λ n, n ≠ ThisNode ctx) (AllNodes ctx))
  ∧ (ThisNode ctx ∈ AllNodes ctx → decShort (next_sc h) ∈ decs (i_ex st)).
Proof.
  intros Hs Hm Hc. unfold exchange_Init, Init_targetNodes.
  rewrite decide_True by done. rewrite <- Hm. simpl.
  rewrite decide_True by done. simpl.
  set (st1 := InitState _ _ _ _ _).
  destruct (Init_sources_fresh (ThisNode ctx) (next_sc h) (AllNodes ctx) st1 Hc eq_refl)
    as (st' & Hrun & Hd & Hcl & He & Hh & Hthis).
  rewrite Hrun. simpl in *. rewrite length_app in Hcl. simpl in Hcl.
  split_and!; try done; try lia.
  rewrite Hh. simpl. by rewrite fn_lookup_insert.
Qed.

(** X12. Whatever the policy and whatever [Connect] answers, [Init]
    leaves alone every connection and every short-circuit the store held:
    all it does to the store is to add fresh short-circuits. *)
Theorem Init_keeps_store (ctx : context) (ex : exchange) (h : store Dataset)
    (d : Distributer) :
  let st := (exchange_Init dist_Connect ctx ex h d).2 in
  conns_ (i_store st) = conns_ h
  ∧ next_sc h ≤ next_sc (i_store st)
  ∧ ∀ l, l < next_sc h → scs (i_store st) l = scs h l.
Proof.
  assert (Htargets : ∀ this ns (st : init_state Dataset Distributer),
             let st' := (Init_targets dist_Connect this ns st).2 in
             conns_ (i_store st') = conns_ (i_store st)
             ∧ next_sc (i_store st) ≤ next_sc (i_store st')
             ∧ ∀ l, l < next_sc (i_store st) → scs (i_store st') l = scs (i_store st) l).
  { intros this ns. induction ns as [|n ns IH]; intros st; simpl; [done|].
    destruct (decide (n = this)).
    - set (st1 := InitState _ _ _ _ _). destruct (IH st1) as (Hc & Hn & Hl).
      simpl in *. split; [done|]. split; [lia|].
      intros l Hlt. rewrite Hl by lia. apply fn_lookup_insert_ne. lia.
    - destruct (dist_Connect _ _ _) as [d1 [c|err]]; simpl; [|done].
      set (st1 := InitState _ _ _ _ _). destruct (IH st1) as (Hc & Hn & Hl). done. }
  assert (Hsources : ∀ this k ns (st : init_state Dataset Distributer),
             i_store (Init_sources dist_Connect this k ns st).2 = i_store st).
  { intros this k ns. induction ns as [|n ns IH]; intros st; simpl; [done|].
    destruct (decide (n = this)); [by rewrite IH|].
    destruct (i_connsMap st !! n); [by rewrite IH|].
    destruct (dist_Connect _ _ _) as [d1 [c|err]]; simpl; [by rewrite IH|done]. }
  unfold exchange_Init.
  pose proof (Htargets (ThisNode ctx) (Init_targetNodes ctx ex) (InitState ex h d ∅ None))
    as Ht.
  destruct (Init_targets _ _ _ _) as [[err|] st1]; simpl in *; [exact Ht|].
  destruct (i_shortCircuit st1) as [l|]; simpl; [|exact Ht].
  by rewrite Hsources.
Qed.

End MoreInit.

Section MoreRun.

Context {Dataset : Type}.

(** ** Close *)

Lemma closer_Close_closed (cl : closer) (h : store Dataset) r h' :
  closer_Close cl h = Returns (r, h') →
  closer_closed cl h' = true
  ∧ ∀ cl', closer_closed cl' h = true → closer_closed cl' h' = true.
Proof.
  destruct cl as [l|c]; simpl.
  - unfold shortCircuit_Close, chan_close.
    destruct (scs h l) as [[q n cl] fl] eqn:Hsc; simpl.
    destruct fl; simpl.
    + intros Heq; inversion Heq; subst; clear Heq. simpl.
      rewrite fn_lookup_insert. split; [done|].
      intros [l'|c'] Hcl; simpl in *; [|done].
      destruct (decide (l = l')) as [->|Hne].
      * by rewrite fn_lookup_insert.
      * by rewrite fn_lookup_insert_ne.
    + destruct cl; simpl; intros Heq; inversion Heq; subst; clear Heq. simpl.
      rewrite fn_lookup_insert. split; [done|].
      intros [l'|c'] Hcl; simpl in *; [|done].
      destruct (decide (l = l')) as [->|Hne].
      * by rewrite fn_lookup_insert.
      * by rewrite fn_lookup_insert_ne.
  - unfold conn_Close. destruct (conns_ h c) as [sn we rc re ce hu] eqn:Hc; simpl.
    destruct hu; simpl; intros Heq; inversion Heq; subst; clear Heq; simpl.
    + rewrite fn_lookup_insert. split; [done|].
      intros [l'|c'] Hcl; simpl in *; [done|].
      destruct (decide (c = c')) as [->|Hne].
      * by rewrite fn_lookup_insert.
      * by rewrite fn_lookup_insert_ne.
    + rewrite fn_lookup_insert. split; [done|].
      intros [l'|c'] Hcl; simpl in *; [done|].
      destruct (decide (c = c')) as [->|Hne].
      * by rewrite fn_lookup_insert.
      * by rewrite fn_lookup_insert_ne.
Qed.

Lemma Close_range_closed (l : list closer) (i : nat) (errOut : option error)
    (h : store Dataset) t r h' :
  Close_range l i errOut h = (t, Returns (r, h')) →
  (∀ cl, cl ∈ l → closer_closed cl h' = true)
  ∧ (∀ cl, closer_closed cl h = true → closer_closed cl h' = true)
  ∧ t = imap (λ k _, EvClose (i + k)) l.
Proof.
  revert i errOut h t. induction l as [|cl l IH]; intros i errOut h t Hrun; simpl in *.
  - inversion Hrun; subst. split_and!; try done.
    intros cl Hin. by apply elem_of_nil in Hin.
  - destruct (closer_Close cl h) as [| |[err1 h1]] eqn:Hclose; try by inversion Hrun.
    destruct (Close_range l (S i) (keep_last errOut err1) h1) as [t1 o1] eqn:Hrest.
    unfold after in Hrun. simpl in Hrun. inversion Hrun; subst; clear Hrun.
    destruct (closer_Close_closed _ _ _ _ Hclose) as [Hself Hkeep].
    destruct (IH _ _ _ _ Hrest) as (Hall & Hkeep' & Htrace).
    split_and!.
    + intros cl' Hin. apply elem_of_cons in Hin as [->|Hin]; [by apply Hkeep'|by apply Hall].
    + intros cl' Hcl. by apply Hkeep', Hkeep.
    + subst t1. rewrite Nat.add_0_r. f_equal.
      apply imap_ext. intros k x _. simpl. f_equal. lia.
Qed.

(** X13. A [Close] that returns has closed every closer of the exchange,
    in their order and whatever each answered: short-circuits and
    connections are all closed afterwards. When it is given an error, it
    first hands every encoder an envelope with the message of that error. *)
Theorem Close_closes_all (ex : exchange) (h : store Dataset) (err : option error)
    t r h' :
  exchange_Close ex h err = (t, Returns (r, h')) →
  (∀ cl, cl ∈ conns ex → closer_closed cl h' = true)
  ∧ t = match err with
        | Some e => imap (λ k _, EvEncode k (DataReq (PErrMsg (Error e)))) (encs ex)
        | None => []
        end ++ imap (λ k _, EvClose k) (conns ex).
Proof.
  unfold exchange_Close. destruct err as [e|].
  - destruct (exchange_EncodeAll ex h (inr e)) as [t1 [| |[errOut h1]]] eqn:Hall;
      try (intros Heq; by inversion Heq).
    destruct (Close_range (conns ex) 0 errOut h1) as [t2 o2] eqn:Hclose.
    intros Heq; inversion Heq; subst; clear Heq.
    destruct (Close_range_closed _ _ _ _ _ _ _ Hclose) as (Hcl & _ & ->).
    split; [exact Hcl|]. f_equal.
    unfold exchange_EncodeAll in Hall. by apply EncodeAll_range_trace in Hall.
  - intros Hclose. destruct (Close_range_closed _ _ _ _ _ _ _ Hclose) as (Hcl & _ & ->).
    by split.
Qed.

(** ** Run *)

Section WithConnect.

Context {Distributer : Type}
        (dist_Connect : Distributer → string → string → Distributer * (conn + error)).

(** X14. When [Init] fails, [Run] gets no further than returning that
    error: it reads nothing from its input, sends nothing on its output
    and starts no receiver. *)
Theorem Run_Init_failure (ctx : context) (ex : exchange) (h : store Dataset)
    (d : Distributer) (inp : chan Dataset) (out : list Dataset) (err : error)
    (s : run_state Dataset) :
  (exchange_Init dist_Connect ctx ex h d).1 = Some err →
  rtc (run_step ctx) (exchange_Run_init dist_Connect ctx ex h d inp out) s →
  r_err s = Some err ∧ r_inp s = Some inp ∧ r_out s = out ∧ r_rcv s = RcvNone
  ∧ r_ex s = i_ex (exchange_Init dist_Connect ctx ex h d).2.
Proof.
  intros Hinit Hsteps. unfold exchange_Run_init in Hsteps.
  destruct (exchange_Init dist_Connect ctx ex h d) as [r st]; simpl in *; subst r.
  remember (RunState _ _ _ _ _ _ _ _ _) as s0 eqn:Hs0.
  assert (Hinv : r_err s0 = Some err ∧ r_inp s0 = Some inp ∧ r_out s0 = out
                 ∧ r_rcv s0 = RcvNone ∧ r_ex s0 = i_ex st) by (by subst s0).
  clear Hs0. induction Hsteps as [|x y z Hxy _ IH]; [exact Hinv|].
  apply IH. destruct Hinv as (He & Hi & Ho & Hr & Hx).
  inversion Hxy; subst; simpl in *;
    try congruence;
    try (match goal with H : loop_guard _ = true |- _ =>
           unfold loop_guard in H; rewrite He in H; discriminate H end).
  done.
Qed.

End WithConnect.

(** X15. Once its error is set, a run takes nothing more from its input
    and sends nothing more to its peers' encoders by way of [Send]: the
    error, the input and the outbound cursor stay as they are, whatever
    the receiver still does. *)
Theorem Run_error_is_final (ctx : context) (s s' : run_state Dataset) (e : error) :
  r_err s = Some e → rtc (run_step ctx) s s' →
  r_err s' = Some e ∧ r_inp s' = r_inp s
  ∧ encsNext (r_ex s') = encsNext (r_ex s) ∧ encs (r_ex s') = encs (r_ex s).
Proof.
  intros He Hsteps. induction Hsteps as [|x y z Hxy _ IH]; [done|].
  assert (Hstep : r_err y = Some e ∧ r_inp y = r_inp x
                  ∧ encsNext (r_ex y) = encsNext (r_ex x) ∧ encs (r_ex y) = encs (r_ex x)).
  { inversion Hxy; subst; simpl in *;
      try (match goal with H : loop_guard _ = true |- _ =>
             unfold loop_guard in H; rewrite He in H; discriminate H end);
      try done.
    all: match goal with H : exchange_Receive _ _ = _ |- _ =>
           unfold exchange_Receive in H;
           apply (exchange_DecodeNext_frame _ _ _ _ _ _ _ _ eq_refl) in H;
           destruct H as (_ & ? & _ & _ & _ & ?); done end. }
  destruct Hstep as (He' & Hi & Hn & Hen).
  destruct (IH He') as (? & ? & ? & ?).
  split_and!; congruence.
Qed.

Lemma run_inv_step (ctx : context) (s s' : run_state Dataset) :
  run_inv s → run_step ctx s s' → run_inv s'.
Proof.
  unfold run_inv. intros (Hs & Hr & Hg) Hstep.
  inversion Hstep; subst; simpl in *; unfold loop_guard in *; simpl in *.
  all: split_and!; try done; try (intros ?; by auto).
  all: try (intros Hd; specialize (Hr Hd); congruence).
  all: try (intros Hd; specialize (Hs Hd); congruence).
Qed.

(** X16. A run that has returned nil has seen its input closed and has
    heard from its receiver that every peer is done: the input is
    exhausted and the receiver has returned. *)
Theorem Run_returns_nil_when_done {Distributer : Type}
    (dist_Connect : Distributer → string → string → Distributer * (conn + error))
    (ctx : context) (ex : exchange) (h : store Dataset) (d : Distributer)
    (inp : chan Dataset) (out : list Dataset) (s : run_state Dataset) :
  rtc (run_step ctx) (exchange_Run_init dist_Connect ctx ex h d inp out) s →
  r_returned s = true → r_err s = None →
  r_inp s = None ∧ r_rcv s = RcvExited.
Proof.
  intros Hsteps Hret Herr.
  assert (Hinv : run_inv s).
  { assert (H0 : run_inv (exchange_Run_init dist_Connect ctx ex h d inp out)).
    { unfold exchange_Run_init, run_inv.
      destruct (exchange_Init _ _ _ _ _) as [[e|] st]; simpl; done. }
    revert H0. induction Hsteps; eauto using run_inv_step. }
  destruct Hinv as (Hs & Hr & Hg). specialize (Hg Hret).
  unfold loop_guard in Hg. rewrite Herr in Hg.
  apply orb_false_elim in Hg as [Hr1 Hs1].
  apply negb_false_iff in Hr1, Hs1. auto.
Qed.

End MoreRun.

(** ** Null-terminated strings, any bytes *)

Lemma readStr_loop_zero_free (s tail acc : string) (e : option error) :
  zero_free s = true →
  readStr_loop (s +:+ tail) e acc = readStr_loop tail e (acc +:+ runes_of_bytes s).
Proof.
  revert acc. induction s as [|b s IH]; intros acc Hs; simpl in *.
  - by rewrite string_app_nil_r.
  - apply andb_prop in Hs as [Hb Hs]. apply negb_true_iff in Hb.
    apply Ascii.eqb_neq in Hb. rewrite decide_False by done.
    rewrite IH by done. by rewrite string_app_assoc.
Qed.

(** X17. A stream that ends, or stalls, before any zero byte: [readStr]
    returns what it has read so far together with the error that ended
    the stream, and does not return at all while the stream stays open. *)
Theorem readStr_unterminated (p : string) (e : error) :
  zero_free p = true →
  readStr (Reader p (Some e))
  = Returns (runes_of_bytes p, Some e, Reader EmptyString (Some e))
  ∧ readStr (Reader p None) = Blocks.
Proof.
  intros Hp. unfold readStr. cbn [pending r_end].
  pose proof (readStr_loop_zero_free p EmptyString EmptyString (Some e) Hp) as H1.
  pose proof (readStr_loop_zero_free p EmptyString EmptyString None Hp) as H2.
  rewrite string_app_nil_r in H1, H2. rewrite H1, H2. by split.
Qed.

Lemma string_length_app (a b : string) :
  String.length (a +:+ b) = String.length a + String.length b.
Proof. induction a as [|x a IH]; simpl; congruence. Qed.

Lemma runes_of_bytes_plain (s : string) : plain s = true → runes_of_bytes s = s.
Proof.
  induction s as [|b s IH]; simpl; [done|]. intros Hs.
  apply andb_prop in Hs as [Hb Hs]. apply andb_prop in Hb as [_ Hlt].
  unfold string_of_byte. rewrite Hlt. simpl. by rewrite IH.
Qed.

Lemma runes_of_bytes_length (s : string) :
  String.length s ≤ String.length (runes_of_bytes s)
  ∧ (zero_free s = true → plain s = false →
     String.length s < String.length (runes_of_bytes s)).
Proof.
  induction s as [|b s [IH1 IH2]]; simpl; [split; [lia|done]|].
  rewrite string_length_app. unfold string_of_byte.
  destruct (Ascii.N_of_ascii b <? 128)%N eqn:Hlt; simpl.
  - split; [lia|]. intros Hz Hp.
    apply andb_prop in Hz as [Hb Hz]. apply negb_true_iff, Ascii.eqb_neq in Hb.
    assert (Hpos : (0 <? Ascii.N_of_ascii b)%N = true).
    { apply N.ltb_lt. destruct (Ascii.N_of_ascii b) eqn:Hn; [|lia].
      exfalso. apply Hb. rewrite <- (Ascii.ascii_N_embedding b), Hn. reflexivity. }
    rewrite Hpos in Hp. simpl in Hp. specialize (IH2 Hz Hp). lia.
  - split; lia.
Qed.

(** X18. Whatever the bytes of a string without a zero byte, [readStr]
    takes from the stream exactly what [writeStr] put there, terminator
    included, and leaves the rest to be read; but the string it returns
    is the one written if and only if that string is made of ASCII bytes. *)
Theorem readStr_framing (s rest : string) (e : option error) :
  zero_free s = true →
  readStr (Reader (written (writeStr (Writer EmptyString None) s).1 +:+ rest) e)
  = Returns (runes_of_bytes s, None, Reader rest e)
  ∧ (writeStr_readStr_roundtrip s ↔ plain s = true).
Proof.
  intros Hs.
  assert (Hread : ∀ rest' e',
             readStr (Reader (written (writeStr (Writer EmptyString None) s).1 +:+ rest') e')
             = Returns (runes_of_bytes s, None, Reader rest' e')).
  { intros rest' e'. unfold readStr, writeStr, writer_Write. simpl.
    rewrite string_app_assoc. rewrite readStr_loop_zero_free by done.
    reflexivity. }
  split; [apply Hread|]. split.
  - intros Hround. specialize (Hround EmptyString None). rewrite Hread in Hround.
    injection Hround as Heq.
    destruct (plain s) eqn:Hp; [done|].
    pose proof (proj2 (runes_of_bytes_length s) Hs Hp) as Hlt.
    rewrite Heq in Hlt. lia.
  - intros Hp rest' e'. rewrite Hread. by rewrite runes_of_bytes_plain.
Qed.

(** ** Rendezvous, further *)

(** X19. What [Connect] returns, on either side: without an error there
    is a connection and no time was spent on the timer; without a
    connection there is an error. The dialing side leaves the rendezvous
    channels alone and the waiting side leaves the network alone. *)
Theorem Connect_contract (d : distributer) (net : network) (to uid : string) :
  let '(d', net', r) := distributer_Connect d net to uid in
  (cr_err r = None → is_Some (cr_conn r) ∧ cr_waited r = 0%Z)
  ∧ (cr_conn r = None → is_Some (cr_err r))
  ∧ (dials (addr d) to = true → d' = d ∧ cr_waited r = 0%Z)
  ∧ (dials (addr d) to = false → net' = net ∧ addr d' = addr d).
Proof.
  assert (Haddr : ∀ k, addr (distributer_connCh d k) = addr d).
  { intros k. unfold distributer_connCh. by destruct (connsMap d !! k). }
  unfold distributer_Connect. destruct (dials (addr d) to) eqn:Hd.
  - unfold dial. destruct (dial_err net to) as [e|]; simpl.
    { split_and!; intros; try done; by eexists. }
    unfold conn_writeStr, writeStr, writer_Write. simpl.
    rewrite fn_lookup_insert. simpl.
    destruct (broken net (next_conn net)) as [e|] eqn:Hb; simpl.
    { split_and!; intros; done. }
    rewrite fn_lookup_insert. simpl. rewrite Hb. simpl.
    split_and!; intros; try done; repeat split; try done; by eexists.
  - simpl. destruct (connsMap (distributer_connCh d _) !! _) as [[|c q]|] eqn:Hl; simpl.
    all: split_and!; intros; try done; repeat split; try done;
      first [by eexists | apply Haddr].
Qed.

Lemma distributer_Serve_offer_lookup (d : distributer) (key : string) (c : conn) :
  plain key = true →
  (distributer_Serve d
     (Reader ("D" +:+ String zero_byte (key +:+ String zero_byte EmptyString)) None) c).2
  = ServeOffers key
  ∧ addr (distributer_Serve d
            (Reader ("D" +:+ String zero_byte (key +:+ String zero_byte EmptyString)) None) c).1
    = addr d
  ∧ ∀ k, connsMap (distributer_Serve d
            (Reader ("D" +:+ String zero_byte (key +:+ String zero_byte EmptyString)) None) c).1
         !! k
         = if decide (k = key) then Some (default [] (connsMap d !! key) ++ [c])
           else connsMap d !! k.
Proof.
  intros Hk. rewrite distributer_Serve_data by done. simpl.
  split; [done|]. split; [done|]. intros k.
  unfold distributer_connCh. destruct (decide (k = key)) as [->|Hne].
  - rewrite lookup_insert_eq. destruct (connsMap d !! key) eqn:Hl; simpl.
    + by rewrite Hl.
    + by rewrite lookup_insert_eq.
  - rewrite lookup_insert_ne by done.
    destruct (connsMap d !! key) eqn:Hl; simpl; [done|].
    by rewrite lookup_insert_ne.
Qed.

(** X20. Connections offered under one key are handed out in the order
    they came: after two data connections announced the same key, the
    first [Connect] waiting for that key gets the first, the second gets
    the second, and a third times out. *)
Theorem rendezvous_fifo (d : distributer) (net : network) (to uid : string)
    (c1 c2 : conn) :
  plain (rendezvous_key to uid) = true →
  dials (addr d) to = false →
  no_offer (connsMap d) (rendezvous_key to uid) →
  let stream :=
    Reader ("D" +:+ String zero_byte
              (rendezvous_key to uid +:+ String zero_byte EmptyString)) None in
  let d1 := (distributer_Serve d stream c1).1 in
  let d2 := (distributer_Serve d1 stream c2).1 in
  ∃ d3 d4 d5,
    distributer_Connect d2 net to uid = (d3, net, ConnectResult (Some c1) None 0)
    ∧ distributer_Connect d3 net to uid = (d4, net, ConnectResult (Some c2) None 0)
    ∧ distributer_Connect d4 net to uid
      = (d5, net, ConnectResult None (Some errConnectTimeout) time_Second).
Proof.
  intros Hk Hd Hno stream d1 d2.
  destruct (distributer_Serve_offer_lookup d _ c1 Hk) as (_ & Ha1 & Hm1).
  destruct (distributer_Serve_offer_lookup d1 _ c2 Hk) as (_ & Ha2 & Hm2).
  fold stream in Ha1, Hm1, Ha2, Hm2. fold d1 in Ha1, Hm1, Ha2, Hm2. fold d2 in Ha2, Hm2.
  assert (Hq2 : connsMap d2 !! rendezvous_key to uid = Some [c1; c2]).
  { rewrite Hm2, decide_True by done. rewrite Hm1, decide_True by done.
    unfold no_offer in Hno. simpl. by rewrite Hno. }
  assert (Hd2 : dials (addr d2) to = false) by (by rewrite Ha2, Ha1).
  do 3 eexists. split; [by apply distributer_Connect_wait|]. split.
  - apply distributer_Connect_wait; simpl; [done|]. by rewrite lookup_insert_eq.
  - unfold distributer_Connect. simpl. rewrite Hd2.
    unfold distributer_connCh. simpl. rewrite !lookup_insert_eq. simpl.
    rewrite !lookup_insert_eq. reflexivity.
Qed.

(** X21. A connection offered under one key is not handed to a
    [Connect] that waits under another: that one times out, and the
    connection is still on offer under its own key. *)
Theorem rendezvous_keys_apart (d : distributer) (net : network) (key to uid : string)
    (c : conn) :
  plain key = true → key ≠ rendezvous_key to uid →
  dials (addr d) to = false →
  no_offer (connsMap d) (rendezvous_key to uid) →
  let d1 := (distributer_Serve d
               (Reader ("D" +:+ String zero_byte (key +:+ String zero_byte EmptyString))
                  None) c).1 in
  ∃ d2,
    distributer_Connect d1 net to uid
    = (d2, net, ConnectResult None (Some errConnectTimeout) time_Second)
    ∧ connsMap d2 !! key = Some (default [] (connsMap d !! key) ++ [c]).
Proof.
  intros Hk Hne Hd Hno d1.
  destruct (distributer_Serve_offer_lookup d key c Hk) as (_ & Ha1 & Hm1).
  fold d1 in Ha1, Hm1.
  assert (Hl : default [] (connsMap d1 !! rendezvous_key to uid) = []).
  { rewrite Hm1, decide_False by done. exact Hno. }
  assert (Hkey : connsMap d1 !! key = Some (default [] (connsMap d !! key) ++ [c])).
  { by rewrite Hm1, decide_True. }
  unfold distributer_Connect. rewrite Ha1, Hd. unfold distributer_connCh.
  destruct (connsMap d1 !! rendezvous_key to uid) as [q|] eqn:Hq; simpl in *.
  - subst q. rewrite Hq. eexists. split; [reflexivity|]. exact Hkey.
  - rewrite lookup_insert_eq. eexists. split; [reflexivity|]. simpl.
    by rewrite lookup_insert_ne.
Qed.

(** X22. A connection that announces a tag other than D and X, in ASCII,
    is refused: [Serve] returns an error that names the tag, and offers
    the connection to nobody. *)
Theorem Serve_unknown_tag (d : distributer) (tag rest : string) (e : option error)
    (c : conn) :
  plain tag = true → tag ≠ "D" → tag ≠ "X" →
  distributer_Serve d (Reader (tag +:+ String zero_byte rest) e) c
  = (d, ServeReturns (Some (errorString ("unrecognized connection type: " +:+ tag)))).
Proof.
  intros Hp HD HX. unfold distributer_Serve.
  rewrite (readStr_plain tag rest e Hp). cbv beta iota.
  by rewrite !decide_False.
Qed.

(** ** Distributed wrapper *)

Section MoreDistRunner.

Context {R : Type} (gob_bytes : distRunner R → string * error + string).

Lemma distRunner_fanout_up (r : distRunner R) (p : string) (addrs : list string)
    (net : network) (deferred : list conn) :
  network_up net → gob_bytes r = inr p →
  ∃ net',
    distRunner_fanout gob_bytes r addrs net deferred
    = (net',
       reverse (seq (next_conn net) (length (others (addr (dr_d r)) addrs))) ++ deferred,
       None)
    ∧ next_conn net' = next_conn net + length (others (addr (dr_d r)) addrs)
    ∧ network_up net'
    ∧ (∀ c, next_conn net ≤ c < next_conn net' → wire net' c = "X" +:+ String zero_byte p)
    ∧ (∀ c, c < next_conn net → wire net' c = wire net c).
Proof.
  intros Hup Hgob. revert net deferred Hup.
  induction addrs as [|a addrs IH]; intros net deferred Hup; simpl.
  - exists net. rewrite Nat.add_0_r. split_and!; try done. intros c Hc. lia.
  - unfold others. destruct (decide (a = addr (dr_d r))) as [->|Hne].
    + rewrite filter_cons_False by (intros Hf; by apply Hf). by apply IH.
    + rewrite filter_cons_True by done. simpl.
      destruct Hup as [Hdial Hw].
      unfold dial. rewrite Hdial.
      unfold conn_writeStr, conn_Write, writeStr, writer_Write. simpl.
      rewrite Hw. simpl. rewrite Hgob. simpl. rewrite Hw. simpl.
      rewrite !fn_lookup_insert. simpl.
      set (net1 := Network _ _ _ _).
      destruct (IH net1 (next_conn net :: deferred)) as (net' & Hrun & Hn & Hup' & Hnew & Hold).
      { by split. }
      exists net'. rewrite Hrun. subst net1. simpl in *.
      fold (others (addr (dr_d r)) addrs) in *. split_and!.
      * f_equal. f_equal. rewrite reverse_cons, <- app_assoc. reflexivity.
      * lia.
      * exact Hup'.
      * intros c Hc. destruct (decide (c = next_conn net)) as [->|Hcn].
        -- rewrite Hold by lia. by rewrite fn_lookup_insert.
        -- apply Hnew. lia.
      * intros c Hc. rewrite Hold by lia.
        rewrite !fn_lookup_insert_ne by lia. reflexivity.
Qed.

Lemma distributer_Serve_execute (d : distributer) (p : string) (c : conn) :
  distributer_Serve d (Reader ("X" +:+ String zero_byte p) None) c
  = (d, ServeExecutes (Reader p None)).
Proof.
  unfold distributer_Serve.
  rewrite (readStr_plain "X" p None eq_refl). cbv beta iota.
  rewrite decide_False by done. by rewrite decide_True.
Qed.

(** X23. On the node that distributed it, over a network where dialing
    and writing succeed, [Run] opens one connection to each address of
    the list that is not its own, in their order, writes on each the tag
    X and the encoded wrapper, and hands over to the wrapped runner; the
    connections are closed, the last first, when it returns. [Serve] on
    the other end reads such a connection as a runner to execute, the
    encoded wrapper being what is left to read. *)
Theorem distRunner_master_fan_out (d : distributer) (runner : R) (addrs : list string)
    (p : string) (ctx : context) (net : network) :
  network_up net →
  gob_bytes (distributer_Distribute d runner addrs) = inr p →
  ∃ net',
    distRunner_Run gob_bytes (distributer_Distribute d runner addrs) ctx net
    = (net', reverse (seq (next_conn net) (length (others (addr d) addrs))),
       inr (Context_ addrs (addr d) (addr d) (Done ctx)))
    ∧ ∀ c, next_conn net ≤ c < next_conn net + length (others (addr d) addrs) →
        wire net' c = "X" +:+ String zero_byte p
        ∧ ∀ d', distributer_Serve d' (Reader (wire net' c) None) c
                = (d', ServeExecutes (Reader p None)).
Proof.
  intros Hup Hgob. unfold distRunner_Run. simpl. rewrite decide_True by done.
  destruct (distRunner_fanout_up (distributer_Distribute d runner addrs) p addrs net [] Hup Hgob)
    as (net' & Hrun & Hn & _ & Hnew & _).
  simpl in *. rewrite Hrun, app_nil_r. exists net'. split; [done|].
  intros c Hc. rewrite Hnew by lia. split; [done|].
  intros d'. apply distributer_Serve_execute.
Qed.

Lemma distRunner_fanout_dial_fails (r : distRunner R) (addrs rest : list string)
    (a : string) (e : error) (net : network) (deferred : list conn) :
  others (addr (dr_d r)) addrs = a :: rest → dial_err net a = Some e →
  distRunner_fanout gob_bytes r addrs net deferred = (net, deferred, Some e).
Proof.
  intros Hf Hdial. induction addrs as [|b addrs IH]; simpl; [done|].
  unfold others in *. destruct (decide (b = addr (dr_d r))) as [->|Hne].
  - rewrite filter_cons_False in Hf by (intros Hx; by apply Hx). by apply IH.
  - rewrite filter_cons_True in Hf by done. inversion Hf; subst.
    unfold dial. by rewrite Hdial.
Qed.

(** X24. On the master, when the first address that is not its own
    cannot be dialed, [Run] returns the dial error: it has written
    nothing, has no connection to close, and does not run the wrapped
    runner. *)
Theorem distRunner_dial_failure (r : distRunner R) (ctx : context) (net : network)
    (a : string) (rest : list string) (e : error) :
  addr (dr_d r) = MasterAddr r →
  others (addr (dr_d r)) (Addrs r) = a :: rest → dial_err net a = Some e →
  distRunner_Run gob_bytes r ctx net = (net, [], inl e).
Proof.
  intros Hm Hf Hdial. unfold distRunner_Run. rewrite decide_True by done.
  by rewrite (distRunner_fanout_dial_fails r (Addrs r) rest a e net [] Hf Hdial).
Qed.

(** X25. On the master, with the first other address dialed: when the
    tag cannot be written, [Run] returns the write error and leaves the
    connection it has just opened unclosed; when the tag is written but
    the encoder of the wrapper stops with an error, [Run] returns that
    error and does close the connection, on which the tag is followed by
    whatever the encoder had written before it stopped, and nothing else.
    The peer's [Serve] reads such a connection as a runner to execute,
    with those bytes left to read. *)
Theorem distRunner_failed_handshake (r : distRunner R) (ctx : context) (net : network)
    (a : string) (rest : list string) (e : error) :
  addr (dr_d r) = MasterAddr r →
  others (addr (dr_d r)) (Addrs r) = a :: rest → dial_err net a = None →
  (broken net (next_conn net) = Some e →
   ∃ net', distRunner_Run gob_bytes r ctx net = (net', [], inl e)
     ∧ next_conn net' = S (next_conn net))
  ∧ (broken net (next_conn net) = None → ∀ p, gob_bytes r = inl (p, e) →
     ∃ net', distRunner_Run gob_bytes r ctx net = (net', [next_conn net], inl e)
       ∧ next_conn net' = S (next_conn net)
       ∧ wire net' (next_conn net) = "X" +:+ String zero_byte p
       ∧ ∀ d', distributer_Serve d' (Reader (wire net' (next_conn net)) None) (next_conn net)
               = (d', ServeExecutes (Reader p None))).
Proof.
  intros Hm Hf Hdial. unfold distRunner_Run. rewrite decide_True by done.
  assert (Hskip : ∀ addrs deferred,
             others (addr (dr_d r)) addrs = a :: rest →
             distRunner_fanout gob_bytes r addrs net deferred
             = distRunner_fanout gob_bytes r (a :: rest) net deferred
               ∨ ∃ post, distRunner_fanout gob_bytes r addrs net deferred
                         = distRunner_fanout gob_bytes r (a :: post) net deferred).
  { intros addrs deferred. induction addrs as [|b addrs IH]; simpl; [done|].
    unfold others in *. destruct (decide (b = addr (dr_d r))) as [->|Hne].
    - rewrite filter_cons_False by (intros Hx; by apply Hx). exact IH.
    - rewrite filter_cons_True by done. intros Heq; inversion Heq; subst.
      right. exists addrs. simpl. by rewrite decide_False. }
  assert (Hne : a ≠ addr (dr_d r)).
  { assert (Hin : a ∈ others (addr (dr_d r)) (Addrs r)) by (rewrite Hf; set_solver).
    unfold others in Hin. by apply list_elem_of_filter in Hin as [? _]. }
  assert (Hhead : ∃ post, distRunner_fanout gob_bytes r (Addrs r) net []
                          = distRunner_fanout gob_bytes r (a :: post) net []).
  { destruct (Hskip (Addrs r) [] Hf) as [Heq|Heq]; [by exists rest|exact Heq]. }
  destruct Hhead as [post ->]. simpl. rewrite decide_False by done.
  unfold dial. rewrite Hdial.
  unfold conn_writeStr, writeStr, writer_Write. simpl.
  split.
  - intros Hb. rewrite Hb. simpl. eexists. split; reflexivity.
  - intros Hb p Hgob. rewrite Hb. simpl. rewrite Hgob.
    destruct (decide (p = EmptyString)) as [->|Hp].
    + eexists. split; [reflexivity|]. split; [reflexivity|]. simpl.
      rewrite !fn_lookup_insert. split; [reflexivity|].
      intros d'. apply distributer_Serve_execute.
    + unfold conn_Write, writer_Write. simpl. rewrite Hb. simpl.
      eexists. split; [reflexivity|]. split; [reflexivity|]. simpl.
      rewrite !fn_lookup_insert. split; [reflexivity|].
      intros d'. apply distributer_Serve_execute.
Qed.

(** X26. Whenever [Run] hands over to the wrapped runner, the context it
    passes names the wrapper's addresses as the nodes, the wrapper's
    master as the master and the distributer's own address as this node,
    and keeps the cancellation of the context it was given; on a node
    that is not the master it has touched no connection on the way. *)
Theorem distRunner_context (r : distRunner R) (ctx ctx' : context) (net net' : network)
    (closing : list conn) :
  distRunner_Run gob_bytes r ctx net = (net', closing, inr ctx') →
  AllNodes ctx' = Addrs r ∧ ThisNode ctx' = addr (dr_d r)
  ∧ MasterNode ctx' = MasterAddr r ∧ Done ctx' = Done ctx
  ∧ (addr (dr_d r) ≠ MasterAddr r → net' = net ∧ closing = []).
Proof.
  unfold distRunner_Run. destruct (decide (addr (dr_d r) = MasterAddr r)) as [Hm|Hm].
  - destruct (distRunner_fanout gob_bytes r (Addrs r) net []) as [[net1 cl] [e|]];
      intros Heq; inversion Heq; subst. by split_and!.
  - intros Heq; inversion Heq; subst. by split_and!.
Qed.

End MoreDistRunner.

(** * The further properties at work *)

Lemma shortCircuit_open_fifo_witness :
  sc_reachable (@newShortCircuit nat)
  ∧ Closed (@newShortCircuit nat) = false
  ∧ ∃ sc1,
      shortCircuit_Encodes newShortCircuit [DataReq (PDataset 1); DataReq (PDataset 2)]
      = Returns (sc1, None)
      ∧ shortCircuit_Decodes 2 sc1 (DataReq PNil)
        = Returns (newShortCircuit,
                   [(DataReq (PDataset 1), None); (DataReq (PDataset 2), None)])
      ∧ shortCircuit_Decode (@newShortCircuit nat) (DataReq PNil) = Blocks.
Proof.
  assert (Hr : sc_reachable (@newShortCircuit nat)) by apply rtc_refl.
  split; [exact Hr|]. split; [reflexivity|].
  exact (shortCircuit_open_fifo newShortCircuit
           [DataReq (PDataset 1); DataReq (PDataset 2)] (DataReq PNil) Hr eq_refl
           ltac:(simpl; lia)).
Defined.

Lemma shortCircuit_capacity_witness :
  sc_reachable (@newShortCircuit nat)
  ∧ shortCircuit_Encode (@newShortCircuit nat) (DataReq (PDataset 1))
    = Returns (ShortCircuit (Chan [DataReq (PDataset 1)] 1000 false) false, None).
Proof.
  assert (Hr : sc_reachable (@newShortCircuit nat)) by apply rtc_refl.
  split; [exact Hr|].
  exact (proj1 (proj2 (shortCircuit_capacity newShortCircuit (DataReq (PDataset 1)) Hr))
           eq_refl ltac:(simpl; lia)).
Defined.

Lemma scatter_conservation_witness :
  SendTo ex_scatter3 = sendScatter ∧ 1 ≤ length (encs ex_scatter3)
  ∧ ∃ t rs ex' h',
      exchange_Sends ex_scatter3 store0 [10; 20; 30; 40] = (t, Returns (rs, ex', h'))
      ∧ encoded t = [DataReq (PDataset 10); DataReq (PDataset 20);
                     DataReq (PDataset 30); DataReq (PDataset 40)]
      ∧ encsNext ex' mod 3 = (0 + 4) mod 3
      ∧ encsNext ex' = 1
      ∧ t = [EvEncode 1 (DataReq (PDataset 10)); EvEncode 2 (DataReq (PDataset 20));
             EvEncode 0 (DataReq (PDataset 30)); EvEncode 1 (DataReq (PDataset 40))].
Proof.
  split; [reflexivity|]. split; [simpl; lia|].
  do 4 eexists. split; [reflexivity|].
  destruct (scatter_conservation [10; 20; 30; 40] ex_scatter3 store0 _ _ _ _
              eq_refl (le_S _ _ (le_S _ _ (le_n 1))) eq_refl)
    as (Henc & _ & _ & _ & Hcur & Hexact & _ & Htrace).
  split; [exact Henc|]. split; [exact Hcur|].
  split; [exact (Hexact ltac:(discriminate))|exact Htrace].
Defined.

Lemma broadcast_fan_out_witness :
  SendTo ex_broadcast2 ≠ sendScatter ∧ SendTo ex_broadcast2 ≠ sendPartition
  ∧ ∃ t h',
      exchange_Send ex_broadcast2 store0 5 = (t, Returns (None, ex_broadcast2, h'))
      ∧ t = [EvEncode 0 (DataReq (PDataset 5)); EvEncode 1 (DataReq (PDataset 5))]
      ∧ encoder_holds (dbgEncoder 1 "m") h' = [DataReq (PDataset 5)]
      ∧ encoder_holds (encShort 0) h' = [DataReq (PDataset 5)].
Proof.
  assert (H1 : SendTo ex_broadcast2 ≠ sendScatter) by discriminate.
  assert (H2 : SendTo ex_broadcast2 ≠ sendPartition) by discriminate.
  split; [exact H1|]. split; [exact H2|].
  do 2 eexists. split; [reflexivity|].
  destruct (broadcast_fan_out ex_broadcast2 store0 5 _ _ _ _ H1 H2 eq_refl)
    as (_ & Ht & Hholds).
  split; [exact Ht|].
  assert (Hnd : NoDup (encoder_target <$> encs ex_broadcast2)).
  { apply (bool_decide_unpack _). by vm_compute. }
  split.
  - apply (Hholds eq_refl Hnd). simpl. apply list_elem_of_here.
  - apply (Hholds eq_refl Hnd). simpl. apply list_elem_of_further, list_elem_of_here.
Defined.

Lemma partition_sends_nothing_witness :
  SendTo ex_partition = sendPartition
  ∧ exchange_Sends ex_partition store0 [1; 2; 3]
    = ([], Returns ([None; None; None], ex_partition, store0)).
Proof.
  split; [reflexivity|].
  exact (partition_sends_nothing [1; 2; 3] ex_partition store0 eq_refl).
Defined.

Lemma scatter_without_encoders_witness :
  SendTo ex_scatter0 = sendScatter ∧ encs ex_scatter0 = []
  ∧ exchange_Sends ex_scatter0 store0 [1; 2]
    = ([], Returns ([Some io_ErrClosedPipe; Some io_ErrClosedPipe], ex_scatter0, store0)).
Proof.
  split; [reflexivity|]. split; [reflexivity|].
  exact (scatter_without_encoders [1; 2] ex_scatter0 store0 eq_refl eq_refl).
Defined.

(** The run of [DecodeNext] over the two finished decoders of [ex_reading]. *)
Lemma ex_reading_drains :
  ∃ t h',
    exchange_DecodeNext ex_reading store_done
    = (t, Returns (None, Some io_EOF, set_decs ex_reading [], h')).
Proof.
  do 2 eexists.
  rewrite exchange_DecodeNext_eq. simpl.
  rewrite exchange_DecodeNext_eq. simpl.
  rewrite exchange_DecodeNext_eq. reflexivity.
Defined.

Lemma DecodeNext_EOF_means_drained_witness :
  ∃ t od ex' h',
    exchange_DecodeNext ex_reading store_done = (t, Returns (od, Some io_EOF, ex', h'))
    ∧ decs ex' = [] ∧ od = None.
Proof.
  destruct ex_reading_drains as (t & h' & Hrun).
  exists t, None, (set_decs ex_reading []), h'. split; [exact Hrun|].
  exact (DecodeNext_EOF_means_drained ex_reading store_done t None _ h' Hrun).
Defined.

Lemma DecodeNext_only_drops_witness :
  ∃ t od oe ex' h',
    exchange_DecodeNext ex_reading store_done = (t, Returns (od, oe, ex', h'))
    ∧ decs ex' `sublist_of` decs ex_reading ∧ encsNext ex' = encsNext ex_reading.
Proof.
  destruct ex_reading_drains as (t & h' & Hrun).
  exists t, None, (Some io_EOF), (set_decs ex_reading []), h'. split; [exact Hrun|].
  destruct (DecodeNext_only_drops ex_reading store_done t _ _ _ h' Hrun)
    as (Hsub & _ & _ & _ & Hn & _).
  split; [exact Hsub|exact Hn].
Defined.

Lemma DecodeNext_other_results_witness :
  decs (set_decs ex_reading [dbgDecoder 3 "m"])
  !! next_dec (set_decs ex_reading [dbgDecoder 3 "m"])
  = Some (dbgDecoder 3 "m")
  ∧ ∃ h',
      exchange_DecodeNext (set_decs ex_reading [dbgDecoder 3 "m"]) store_done
      = after (EvDecode 0) (exchange_DecodeNext (set_decs ex_reading []) h').
Proof.
  split; [reflexivity|].
  destruct (DecodeNext_other_results (set_decs ex_reading [dbgDecoder 3 "m"]) store_done
              (dbgDecoder 3 "m") eq_refl) as [Herr _].
  eexists.
  exact (proj1 (Herr (errorString "EOF") (DataReq PNil) _ eq_refl) eq_refl).
Defined.

Lemma connect_fresh_connects : connects connect_fresh.
Proof. intros d n u. by exists (S d), d. Defined.

Lemma Init_mesh_witness :
  SendTo ex_scatter0 ≠ sendGather ∧ ThisNode ctx_a ∈ AllNodes ctx_a
  ∧ connects connect_fresh
  ∧ (exchange_Init connect_fresh ctx_a ex_scatter0 store0 0).1 = None
  ∧ length (encs (i_ex (exchange_Init connect_fresh ctx_a ex_scatter0 store0 0).2)) = 0 + 3
  ∧ length (decs (i_ex (exchange_Init connect_fresh ctx_a ex_scatter0 store0 0).2)) = 0 + 3
  ∧ length (conns (i_ex (exchange_Init connect_fresh ctx_a ex_scatter0 store0 0).2)) = 0 + 3.
Proof.
  assert (H1 : SendTo ex_scatter0 ≠ sendGather) by discriminate.
  assert (H2 : ThisNode ctx_a ∈ AllNodes ctx_a) by (simpl; apply list_elem_of_here).
  split; [exact H1|]. split; [exact H2|]. split; [exact connect_fresh_connects|].
  pose proof (Init_mesh connect_fresh ctx_a ex_scatter0 store0 0 H1 H2
                connect_fresh_connects) as H.
  cbv zeta in H. destruct H as (Hr & He & Hd & Hc & _).
  split; [exact Hr|]. split; [exact He|]. split; [exact Hd|exact Hc].
Defined.

Lemma Init_gather_master_witness :
  SendTo ex_gather = sendGather ∧ ThisNode ctx_a = MasterNode ctx_a
  ∧ connects connect_fresh
  ∧ encs (i_ex (exchange_Init connect_fresh ctx_a ex_gather store0 0).2) = [] ++ [encShort 0]
  ∧ length (decs (i_ex (exchange_Init connect_fresh ctx_a ex_gather store0 0).2)) = 0 + 3.
Proof.
  split; [reflexivity|]. split; [reflexivity|]. split; [exact connect_fresh_connects|].
  pose proof (Init_gather_master connect_fresh ctx_a ex_gather store0 0 eq_refl eq_refl
                connect_fresh_connects) as H.
  cbv zeta in H. destruct H as (_ & He & _ & Hd & _).
  split; [exact He|exact Hd].
Defined.

Lemma Close_closes_all_witness :
  ∃ t r h',
    exchange_Close ex_broadcast2 store0 (Some (errorString "boom")) = (t, Returns (r, h'))
    ∧ closer_closed (closeConn 1) h' = true ∧ closer_closed (closeShort 0) h' = true
    ∧ t = [EvEncode 0 (DataReq (PErrMsg "boom")); EvEncode 1 (DataReq (PErrMsg "boom"));
           EvClose 0; EvClose 1].
Proof.
  do 3 eexists. split; [reflexivity|].
  destruct (Close_closes_all ex_broadcast2 store0 (Some (errorString "boom")) _ _ _ eq_refl)
    as [Hcl Ht].
  split; [|split].
  - apply Hcl. simpl. apply list_elem_of_here.
  - apply Hcl. simpl. apply list_elem_of_further, list_elem_of_here.
  - exact Ht.
Defined.

Lemma Run_Init_failure_witness :
  (exchange_Init connect_down ctx_b ex_gather store0 tt).1 = Some (errorString "down")
  ∧ r_err (exchange_Run_init connect_down ctx_b ex_gather store0 tt (Chan [1; 2] 0 true) [])
    = Some (errorString "down")
  ∧ r_inp (exchange_Run_init connect_down ctx_b ex_gather store0 tt (Chan [1; 2] 0 true) [])
    = Some (Chan [1; 2] 0 true).
Proof.
  split; [reflexivity|].
  destruct (Run_Init_failure connect_down ctx_b ex_gather store0 tt (Chan [1; 2] 0 true) []
              (errorString "down") _ eq_refl (rtc_refl _ _)) as (He & Hi & _).
  split; [exact He|exact Hi].
Defined.

Lemma Run_error_is_final_witness :
  (* cancellation: the receiver still delivers a dataset afterwards *)
  (∃ s1 s2,
     rtc (run_step ctx_cancelled)
       (exchange_Run_init connect7 ctx_cancelled ex_broadcast store0 tt (Chan [1; 2] 0 true) [])
       s1
     ∧ r_err s1 = Some (errorString "context canceled")
     ∧ r_rcv s1 = RcvRunning ∧ r_out s1 = []
     ∧ rtc (run_step ctx_cancelled) s1 s2
     ∧ r_out s2 = [1] ∧ r_returned s2 = true
     ∧ r_err s2 = Some (errorString "context canceled")
     ∧ r_inp s2 = Some (Chan [2] 0 true)
     ∧ encsNext (r_ex s2) = 0 ∧ encs (r_ex s2) = [encShort 0])
  (* a failed send: the receiver still runs to its end afterwards *)
  ∧ (∃ s1 s2,
     rtc (run_step ctx_b)
       (exchange_Run_init connect7 ctx_b ex_gather store_cut7 tt (Chan [1; 2] 0 true) [])
       s1
     ∧ r_err s1 = Some (errorString "broken pipe")
     ∧ r_rcv s1 = RcvRunning
     ∧ rtc (run_step ctx_b) s1 s2
     ∧ r_rcv s2 = RcvReports None ∧ r_returned s2 = true
     ∧ r_err s2 = Some (errorString "broken pipe")
     ∧ r_inp s2 = Some (Chan [2] 0 true)
     ∧ encsNext (r_ex s2) = 0 ∧ encs (r_ex s2) = [dbgEncoder 7 "THIS b OTHER a"])
  (* an error of the receiver *)
  ∧ (∃ s1 s2,
     rtc (run_step ctx_a)
       (exchange_Run_init connect7 ctx_a ex_gather store_cut7 tt (Chan [1; 2] 0 true) [])
       s1
     ∧ r_err s1 = Some (errorString "connection reset")
     ∧ r_rcv s1 = RcvExited
     ∧ rtc (run_step ctx_a) s1 s2
     ∧ r_returned s2 = true
     ∧ r_err s2 = Some (errorString "connection reset")
     ∧ r_inp s2 = Some (Chan [1; 2] 0 true)
     ∧ encsNext (r_ex s2) = 0 ∧ encs (r_ex s2) = [encShort 0]).
Proof.
  split; [|split].
  - do 2 eexists. split.
    { run_with @step_inp_data.
      run_with @step_ctx.
      run_normalize. apply rtc_refl. }
    split; [reflexivity|]. split; [reflexivity|]. split; [reflexivity|].
    match goal with |- rtc ?R ?a ?b ∧ _ => assert (Hsteps : rtc R a b) end.
    { eapply rtc_l.
      { eapply step_receive_data; [reflexivity|].
        unfold exchange_Receive. rewrite exchange_DecodeNext_eq. reflexivity. }
      run_with @step_return.
      run_normalize. apply rtc_refl. }
    split; [exact Hsteps|]. split; [reflexivity|]. split; [reflexivity|].
    match type of Hsteps with
    | rtc _ ?a ?b =>
        exact (Run_error_is_final ctx_cancelled a b (errorString "context canceled")
                 eq_refl Hsteps)
    end.
  - do 2 eexists. split.
    { run_with @step_inp_data.
      run_normalize. apply rtc_refl. }
    split; [reflexivity|]. split; [reflexivity|].
    match goal with |- rtc ?R ?a ?b ∧ _ => assert (Hsteps : rtc R a b) end.
    { eapply rtc_l.
      { eapply step_receive_eof; [reflexivity|].
        unfold exchange_Receive. rewrite exchange_DecodeNext_eq. reflexivity. }
      run_with @step_return.
      run_normalize. apply rtc_refl. }
    split; [exact Hsteps|]. split; [reflexivity|]. split; [reflexivity|].
    match type of Hsteps with
    | rtc _ ?a ?b =>
        exact (Run_error_is_final ctx_b a b (errorString "broken pipe") eq_refl Hsteps)
    end.
  - do 2 eexists. split.
    { run_normalize. eapply rtc_l.
      { eapply step_receive_err;
          [reflexivity
          |unfold exchange_Receive; rewrite exchange_DecodeNext_eq; reflexivity
          |discriminate]. }
      run_with @step_errs.
      run_normalize. apply rtc_refl. }
    split; [reflexivity|]. split; [reflexivity|].
    match goal with |- rtc ?R ?a ?b ∧ _ => assert (Hsteps : rtc R a b) end.
    { run_with @step_return.
      run_normalize. apply rtc_refl. }
    split; [exact Hsteps|]. split; [reflexivity|].
    match type of Hsteps with
    | rtc _ ?a ?b =>
        exact (Run_error_is_final ctx_a a b (errorString "connection reset") eq_refl Hsteps)
    end.
Defined.

Lemma Run_returns_nil_when_done_witness :
  ∃ s, rtc (run_step ctx_b)
         (exchange_Run_init connect7 ctx_b ex_gather store0 tt (Chan [1; 2] 0 true) []) s
    ∧ r_returned s = true ∧ r_err s = None
    ∧ r_inp s = None ∧ r_rcv s = RcvExited.
Proof.
  destruct gather_run_on_b as (s & Hsteps & Hret & Herr & _).
  exists s. split; [exact Hsteps|]. split; [exact Hret|]. split; [exact Herr|].
  exact (Run_returns_nil_when_done connect7 ctx_b ex_gather store0 tt (Chan [1; 2] 0 true) []
           s Hsteps Hret Herr).
Defined.

Lemma readStr_unterminated_witness :
  zero_free "abc" = true
  ∧ readStr (Reader "abc" (Some io_EOF))
    = Returns ("abc", Some io_EOF, Reader EmptyString (Some io_EOF))
  ∧ readStr (Reader "abc" None) = Blocks.
Proof.
  split; [reflexivity|].
  exact (readStr_unterminated "abc" io_EOF eq_refl).
Defined.

Lemma readStr_framing_witness :
  zero_free "a:uid" = true
  ∧ readStr (Reader (written (writeStr (Writer EmptyString None) "a:uid").1 +:+ "next") None)
    = Returns ("a:uid", None, Reader "next" None).
Proof.
  split; [reflexivity|].
  exact (proj1 (readStr_framing "a:uid" "next" None eq_refl)).
Defined.

Lemma rendezvous_fifo_witness :
  plain (rendezvous_key "a" "u") = true
  ∧ dials (addr (NewDistributer "b")) "a" = false
  ∧ no_offer (connsMap (NewDistributer "b")) (rendezvous_key "a" "u")
  ∧ ∃ d3 d4 d5,
      distributer_Connect
        (distributer_Serve
           (distributer_Serve (NewDistributer "b")
              (Reader ("D" +:+ String zero_byte
                         (rendezvous_key "a" "u" +:+ String zero_byte EmptyString)) None)
              11).1
           (Reader ("D" +:+ String zero_byte
                      (rendezvous_key "a" "u" +:+ String zero_byte EmptyString)) None)
           12).1 net0 "a" "u"
      = (d3, net0, ConnectResult (Some 11) None 0)
      ∧ distributer_Connect d3 net0 "a" "u" = (d4, net0, ConnectResult (Some 12) None 0)
      ∧ distributer_Connect d4 net0 "a" "u"
        = (d5, net0, ConnectResult None (Some errConnectTimeout) time_Second).
Proof.
  split; [reflexivity|]. split; [reflexivity|]. split; [reflexivity|].
  exact (rendezvous_fifo (NewDistributer "b") net0 "a" "u" 11 12 eq_refl eq_refl eq_refl).
Defined.

Lemma rendezvous_keys_apart_witness :
  plain "a:u" = true ∧ "a:u" ≠ rendezvous_key "a" "v"
  ∧ dials (addr (NewDistributer "b")) "a" = false
  ∧ no_offer (connsMap (NewDistributer "b")) (rendezvous_key "a" "v")
  ∧ ∃ d2,
      distributer_Connect
        (distributer_Serve (NewDistributer "b")
           (Reader ("D" +:+ String zero_byte ("a:u" +:+ String zero_byte EmptyString)) None)
           11).1 net0 "a" "v"
      = (d2, net0, ConnectResult None (Some errConnectTimeout) time_Second)
      ∧ connsMap d2 !! "a:u" = Some ([] ++ [11]).
Proof.
  assert (Hne : "a:u" ≠ rendezvous_key "a" "v") by discriminate.
  split; [reflexivity|]. split; [exact Hne|]. split; [reflexivity|]. split; [reflexivity|].
  exact (rendezvous_keys_apart (NewDistributer "b") net0 "a:u" "a" "v" 11
           eq_refl Hne eq_refl eq_refl).
Defined.

Lemma Serve_unknown_tag_witness :
  plain "Q" = true ∧ "Q" ≠ "D" ∧ "Q" ≠ "X"
  ∧ distributer_Serve (NewDistributer "b") (Reader ("Q" +:+ String zero_byte "rest") None) 4
    = (NewDistributer "b",
       ServeReturns (Some (errorString "unrecognized connection type: Q"))).
Proof.
  assert (H1 : "Q" ≠ "D") by discriminate.
  assert (H2 : "Q" ≠ "X") by discriminate.
  split; [reflexivity|]. split; [exact H1|]. split; [exact H2|].
  exact (Serve_unknown_tag (NewDistributer "b") "Q" "rest" None 4 eq_refl H1 H2).
Defined.

Lemma net0_up : network_up net0.
Proof. split; intros; reflexivity. Defined.

Lemma distRunner_master_fan_out_witness :
  network_up net0
  ∧ gob_ok (distributer_Distribute (NewDistributer "a") tt ["a"; "b"; "c"]) = inr "gob"
  ∧ ∃ net',
      distRunner_Run gob_ok (distributer_Distribute (NewDistributer "a") tt ["a"; "b"; "c"])
        ctx_b net0
      = (net', [1; 0], inr (Context_ ["a"; "b"; "c"] "a" "a" None))
      ∧ wire net' 1 = "X" +:+ String zero_byte "gob".
Proof.
  split; [exact net0_up|]. split; [reflexivity|].
  destruct (distRunner_master_fan_out gob_ok (NewDistributer "a") tt ["a"; "b"; "c"] "gob"
              ctx_b net0 net0_up eq_refl) as (net' & Hrun & Hwire).
  exists net'. split; [exact Hrun|].
  exact (proj1 (Hwire 1 ltac:(simpl; lia))).
Defined.

Lemma distRunner_dial_failure_witness :
  addr (dr_d dr_a) = MasterAddr dr_a
  ∧ others (addr (dr_d dr_a)) (Addrs dr_a) = "b" :: ["c"]
  ∧ dial_err net_down "b" = Some (errorString "refused")
  ∧ distRunner_Run gob_ok dr_a ctx_b net_down = (net_down, [], inl (errorString "refused")).
Proof.
  split; [reflexivity|]. split; [reflexivity|]. split; [reflexivity|].
  exact (distRunner_dial_failure gob_ok dr_a ctx_b net_down "b" ["c"]
           (errorString "refused") eq_refl eq_refl eq_refl).
Defined.

Lemma distRunner_failed_handshake_witness :
  addr (dr_d dr_a) = MasterAddr dr_a
  ∧ others (addr (dr_d dr_a)) (Addrs dr_a) = "b" :: ["c"]
  ∧ dial_err net_broken "b" = None ∧ dial_err net0 "b" = None
  ∧ broken net_broken (next_conn net_broken) = Some (errorString "broken pipe")
  ∧ (∃ net', distRunner_Run gob_ok dr_a ctx_b net_broken
             = (net', [], inl (errorString "broken pipe"))
       ∧ next_conn net' = 1)
  ∧ broken net0 (next_conn net0) = None
  ∧ gob_fails dr_a = inl ("descriptors", errorString "gob: type not registered")
  ∧ (∃ net', distRunner_Run gob_fails dr_a ctx_b net0
             = (net', [0], inl (errorString "gob: type not registered"))
       ∧ next_conn net' = 1
       ∧ wire net' 0 = "X" +:+ String zero_byte "descriptors"
       ∧ ∀ d', distributer_Serve d' (Reader (wire net' 0) None) 0
               = (d', ServeExecutes (Reader "descriptors" None)))
  ∧ gob_refuses dr_a = inl (EmptyString, errorString "gob: cannot encode nil pointer")
  ∧ (∃ net', distRunner_Run gob_refuses dr_a ctx_b net0
             = (net', [0], inl (errorString "gob: cannot encode nil pointer"))
       ∧ next_conn net' = 1
       ∧ wire net' 0 = "X" +:+ String zero_byte EmptyString
       ∧ ∀ d', distributer_Serve d' (Reader (wire net' 0) None) 0
               = (d', ServeExecutes (Reader EmptyString None))).
Proof.
  split; [reflexivity|]. split; [reflexivity|]. split; [reflexivity|].
  split; [reflexivity|]. split; [reflexivity|].
  split.
  { exact (proj1 (distRunner_failed_handshake gob_ok dr_a ctx_b net_broken "b" ["c"]
                    (errorString "broken pipe") eq_refl eq_refl eq_refl) eq_refl). }
  split; [reflexivity|]. split; [reflexivity|].
  split.
  { exact (proj2 (distRunner_failed_handshake gob_fails dr_a ctx_b net0 "b" ["c"]
                    (errorString "gob: type not registered") eq_refl eq_refl eq_refl)
             eq_refl "descriptors" eq_refl). }
  split; [reflexivity|].
  exact (proj2 (distRunner_failed_handshake gob_refuses dr_a ctx_b net0 "b" ["c"]
                  (errorString "gob: cannot encode nil pointer") eq_refl eq_refl eq_refl)
           eq_refl EmptyString eq_refl).
Defined.

Lemma distRunner_context_witness :
  distRunner_Run gob_ok (DistRunner tt ["a"; "b"] "a" (NewDistributer "b")) ctx_a net0
  = (net0, [], inr (Context_ ["a"; "b"] "b" "a" None))
  ∧ ThisNode (Context_ ["a"; "b"] "b" "a" None) = "b"
  ∧ MasterNode (Context_ ["a"; "b"] "b" "a" None) = "a".
Proof.
  assert (Hrun : distRunner_Run gob_ok (DistRunner tt ["a"; "b"] "a" (NewDistributer "b"))
                   ctx_a net0
                 = (net0, [], inr (Context_ ["a"; "b"] "b" "a" None))) by reflexivity.
  split; [exact Hrun|].
  destruct (distRunner_context gob_ok _ _ _ _ _ _ Hrun) as (_ & Ht & Hm & _).
  split; [exact Ht|exact Hm].
Defined.

(** A failed codec on the master: the connection is closed all the same,
    the tag and the descriptors written on it; the second node, c, is
    never dialed. *)
Example distRunner_codec_failure_closes :
  ∃ net', distRunner_Run gob_fails dr_a ctx_b net0
          = (net', [0], inl (errorString "gob: type not registered"))
    ∧ wire net' 0 = "X" +:+ String zero_byte "descriptors"
    ∧ next_conn net' = 1.
Proof. eexists. split; [reflexivity|]. split; reflexivity. Qed.
